(** * zapcl: the Cloud Logging core for zap, embedded in Rocq

    The development follows the Go package [zapcl]: the level-to-severity
    table and the level encoder, the record core ([clone], [With], [Check],
    [Write], [Sync]), the classification of flush errors, the construction of
    a core ([newCore], [NewCore]) and the source-location field.

    The packages the program imports ([fmt], [errors], [unix], [logtypepb],
    [zapcore], [zap]) are embedded as far as the program relies on them:
    error chains, the field constructors, the encoder interfaces, the JSON
    encoder and the stock core.  Objects the program reaches through
    pointers (encoders and sinks) live in an explicit store, so that
    sharing and copying are visible in the statements. *)

From Stdlib Require Import ZArith Lia Ascii.
From stdpp Require Import gmap strings list sorting pretty.

Open Scope Z_scope.
Open Scope string_scope.
Open Scope list_scope.

(** ** Results of a call: a value, or a run-time panic *)

Inductive Res (A : Type) : Type :=
  | Ok (a : A)
  | Panic (msg : string).
Arguments Ok {A} a.
Arguments Panic {A} msg.

Definition res_bind {A B} (r : Res A) (k : A -> Res B) : Res B :=
  match r with
  | Ok a => k a
  | Panic msg => Panic msg
  end.

Definition nil_deref : string := "invalid memory address or nil pointer dereference".

(** ** Go's [error] values *)

(** An error is an OS error number ([syscall.Errno]), a plain message
    ([errors.New]) or a wrapper around another error, as [fmt.Errorf] with
    the verb [%w] and [os.PathError] build them.  [WrapError prefix err]
    keeps the text put before the cause. *)
Inductive error : Type :=
  | Errno (code : Z)
  | ErrorString (text : string)
  | WrapError (prefix : string) (err : error).

Global Instance error_eq_dec : EqDecision error.
Proof. solve_decision. Defined.

Module fmt.
(** [fmt.Errorf(prefix + ": %w", err)] *)
Definition Errorf (prefix : string) (err : error) : error :=
  WrapError prefix err.
End fmt.

Module errors.
(** [Unwrap]: the cause of a wrapper, nothing for the other errors. *)
Definition Unwrap (err : error) : option error :=
  match err with
  | WrapError _ inner => Some inner
  | _ => None
  end.

(** [errors.Is(err, target)] walks the chain of causes of [err] and
    compares each link with [target].  The targets of this program are
    error numbers, which are compared by value; [Errno]'s own [Is] method
    answers only for the portable sentinels of package [os], never for
    another error number. *)
Fixpoint Is (err target : error) : bool :=
  bool_decide (err = target) ||
  match err with
  | WrapError _ inner => Is inner target
  | _ => false
  end.

(** The chain of causes, outermost first. *)
Fixpoint chain (err : error) : list error :=
  err :: match err with
         | WrapError _ inner => chain inner
         | _ => []
         end.
End errors.

Module unix.
(** Error numbers of [golang.org/x/sys/unix] on Linux. *)
Definition EBADF : error := Errno 9.
Definition EINVAL : error := Errno 22.
Definition ENOTTY : error := Errno 25.
Definition ENOTSUP : error := Errno 95.
End unix.

(** ** Levels and severities *)

(** [zapcore.Level] is an [int8]. *)
Abbreviation Level := Z.

Module logtypepb.
(** [google.logging.type.LogSeverity] *)
Inductive LogSeverity : Type :=
  | LogSeverity_DEFAULT
  | LogSeverity_DEBUG
  | LogSeverity_INFO
  | LogSeverity_NOTICE
  | LogSeverity_WARNING
  | LogSeverity_ERROR
  | LogSeverity_CRITICAL
  | LogSeverity_ALERT
  | LogSeverity_EMERGENCY.

Global Instance LogSeverity_eq_dec : EqDecision LogSeverity.
Proof. solve_decision. Defined.

(** The enumerant's number. *)
Definition Number (s : LogSeverity) : Z :=
  match s with
  | LogSeverity_DEFAULT => 0
  | LogSeverity_DEBUG => 100
  | LogSeverity_INFO => 200
  | LogSeverity_NOTICE => 300
  | LogSeverity_WARNING => 400
  | LogSeverity_ERROR => 500
  | LogSeverity_CRITICAL => 600
  | LogSeverity_ALERT => 700
  | LogSeverity_EMERGENCY => 800
  end.

(** [LogSeverity.String] *)
Definition String (s : LogSeverity) : string :=
  match s with
  | LogSeverity_DEFAULT => "DEFAULT"
  | LogSeverity_DEBUG => "DEBUG"
  | LogSeverity_INFO => "INFO"
  | LogSeverity_NOTICE => "NOTICE"
  | LogSeverity_WARNING => "WARNING"
  | LogSeverity_ERROR => "ERROR"
  | LogSeverity_CRITICAL => "CRITICAL"
  | LogSeverity_ALERT => "ALERT"
  | LogSeverity_EMERGENCY => "EMERGENCY"
  end.
End logtypepb.

(** ** Package [zapcore]: levels, fields, entries *)

Definition DebugLevel : Level := -1.
Definition InfoLevel : Level := 0.
Definition WarnLevel : Level := 1.
Definition ErrorLevel : Level := 2.
Definition DPanicLevel : Level := 3.
Definition PanicLevel : Level := 4.
Definition FatalLevel : Level := 5.

(** The seven levels zap defines. *)
Definition defined_levels : list Level :=
  [DebugLevel; InfoLevel; WarnLevel; ErrorLevel; DPanicLevel; PanicLevel; FatalLevel].

(** A [zapcore.LevelEnabler] is given by its [Enabled] method.  A [Level]
    is itself an enabler: it enables the levels at or above it. *)
Definition LevelEnabler : Type := Level -> bool.

Definition Level_Enabled (l : Level) : LevelEnabler := fun lvl => (l <=? lvl)%Z.

(** [error.Error()] *)
Fixpoint Error (err : error) : string :=
  match err with
  | Errno 9 => "bad file descriptor"
  | Errno 22 => "invalid argument"
  | Errno 25 => "inappropriate ioctl for device"
  | Errno 95 => "operation not supported"
  | Errno code => "errno " +:+ pretty code
  | ErrorString text => text
  | WrapError prefix inner => prefix +:+ ": " +:+ Error inner
  end.

(** Values of type [interface{}], as the initial-field map holds them:
    [nil], a [bool], an [int], a [string], or a value of a type that
    [zap.Any] hands to the reflective encoder.  The last kind is given by
    what the reflective encoder makes of it: its JSON text or an error. *)
Inductive Value : Type :=
  | VNil
  | VBool (b : bool)
  | VInt (n : Z)
  | VString (s : string)
  | VReflect (json : string + error).

(** [loggingpb.LogEntrySourceLocation] *)
Record LogEntrySourceLocation : Type := {
  File : string;
  Line : Z;
  Function : string;
}.

(** [type sourceLocation struct { *loggingpb.LogEntrySourceLocation }] *)
Record sourceLocation : Type := {
  sl_embedded : option LogEntrySourceLocation;
}.

(** The getters of the generated message type accept a nil receiver. *)
Definition GetFile (m : option LogEntrySourceLocation) : string :=
  match m with Some x => File x | None => "" end.
Definition GetLine (m : option LogEntrySourceLocation) : Z :=
  match m with Some x => Line x | None => 0 end.
Definition GetFunction (m : option LogEntrySourceLocation) : string :=
  match m with Some x => Function x | None => "" end.

(** Modelled from the spec: the resource descriptor that
    [monitoredresource.Detect] returns (package [pkg/monitoredresource]): a
    type, a log-stream id and a set of resource-identifying labels, which
    its [MarshalLogObject] writes as string fields. *)
Record Resource : Type := {
  res_Type : string;
  res_LogID : string;
  res_Labels : list (string * string);
}.

(** What the [Interface] field of a [zapcore.Field] holds in this program:
    nothing, a [*sourceLocation] (the pointer itself may be nil), a resource
    descriptor, or a plain value. *)
Inductive Iface : Type :=
  | INil
  | ISourceLocation (l : option sourceLocation)
  | IResource (r : Resource)
  | IValue (v : Value).

Inductive FieldType : Type :=
  | UnknownType
  | BoolType
  | Int64Type
  | ObjectMarshalerType
  | InlineMarshalerType
  | ReflectType
  | StringType
  | SkipType.

Global Instance FieldType_eq_dec : EqDecision FieldType.
Proof. solve_decision. Defined.

(** [zapcore.Field] *)
Record Field : Type := {
  Key : string;
  Type_ : FieldType;
  Integer : Z;
  String_ : string;
  Interface : Iface;
}.

(** [zapcore.EntryCaller], kept as the flag and the short [file:line] form
    that [ShortCallerEncoder] prints. *)
Record EntryCaller : Type := {
  Defined_ : bool;
  TrimmedPath : string;
}.

(** [zapcore.Entry].  The time stamp is kept as its RFC 3339 text with
    nanoseconds, the only form the encoder configuration prints. *)
Record Entry : Type := {
  Level_ : Level;
  Time : string;
  LoggerName : string;
  Message : string;
  Caller : EntryCaller;
  Stack : string;
}.

(** ** The encoder interfaces of [zapcore] *)

(** [zapcore.ObjectEncoder], with the one method of
    [PrimitiveArrayEncoder] the level encoder calls.  An encoder is a
    value of [E]; a method returns the encoder after the call.  [AddObject]
    receives the marshaler as the function it runs on the encoder. *)
Class ObjectEncoder (E : Type) : Type := {
  AddBool : string -> bool -> E -> E;
  AddInt64 : string -> Z -> E -> E;
  AddString : string -> string -> E -> E;
  AddReflected : string -> Value -> E -> E * option error;
  AddObject : string -> (E -> Res (E * option error)) -> E -> Res (E * option error);
  AppendString : string -> E -> E;
}.

(** [zapcore.Encoder]: an object encoder that can be cloned and can encode
    an entry with its accumulated context into a buffer. *)
Class Encoder (E : Type) `{ObjectEncoder E} : Type := {
  Clone : E -> E;
  EncodeEntry : E -> Entry -> list Field -> Res (E * (string + error));
}.

Section Marshalers.
Context {E : Type} `{ObjectEncoder E}.

(** [func (l *sourceLocation) MarshalLogObject(enc)]: the receiver is
    dereferenced to reach the embedded message, so a nil receiver
    panics. *)
Definition MarshalLogObject (l : option sourceLocation) (enc : E) : Res (E * option error) :=
  match l with
  | None => Panic nil_deref
  | Some l =>
      let enc := AddString "file" (GetFile (sl_embedded l)) enc in
      let enc := AddInt64 "line" (GetLine (sl_embedded l)) enc in
      let enc := AddString "function" (GetFunction (sl_embedded l)) enc in
      Ok (enc, None)
  end.

(** Modelled from the spec: the resource descriptor's marshaler, which
    writes the labels in order. *)
Definition Resource_MarshalLogObject (r : Resource) (enc : E) : Res (E * option error) :=
  Ok (fold_left (fun e kv => AddString (fst kv) (snd kv) e) (res_Labels r) enc, None).

(** The type assertion [f.Interface.(ObjectMarshaler)] followed by the
    call of [MarshalLogObject]. *)
Definition Iface_MarshalLogObject (i : Iface) (enc : E) : Res (E * option error) :=
  match i with
  | ISourceLocation l => MarshalLogObject l enc
  | IResource r => Resource_MarshalLogObject r enc
  | INil | IValue _ => Panic "interface conversion: not a zapcore.ObjectMarshaler"
  end.

(** [func (f Field) AddTo(enc ObjectEncoder)] *)
Definition AddTo (f : Field) (enc : E) : Res E :=
  res_bind
    match Type_ f with
    | BoolType => Ok (AddBool (Key f) (bool_decide (Integer f = 1)) enc, None)
    | Int64Type => Ok (AddInt64 (Key f) (Integer f) enc, None)
    | StringType => Ok (AddString (Key f) (String_ f) enc, None)
    | ObjectMarshalerType =>
        match Interface f with
        | INil | IValue _ => Panic "interface conversion: not a zapcore.ObjectMarshaler"
        | i => AddObject (Key f) (Iface_MarshalLogObject i) enc
        end
    | InlineMarshalerType => Iface_MarshalLogObject (Interface f) enc
    | ReflectType =>
        Ok (AddReflected (Key f)
              match Interface f with IValue v => v | _ => VNil end enc)
    | SkipType => Ok (enc, None)
    | UnknownType => Panic "unknown field type"
    end
    (fun '(enc, err) =>
       match err with
       | Some err => Ok (AddString (Key f +:+ "Error") (Error err) enc)
       | None => Ok enc
       end).

(** [func addFields(enc, fields)]: the fields are added in slice order. *)
Fixpoint addFields (enc : E) (fields : list Field) : Res E :=
  match fields with
  | [] => Ok enc
  | f :: fields => res_bind (AddTo f enc) (fun enc => addFields enc fields)
  end.
End Marshalers.

(** ** Package [zap]: field constructors *)

Module zap.
Definition mkField (key : string) (t : FieldType) (n : Z) (s : string) (i : Iface) : Field :=
  {| Key := key; Type_ := t; Integer := n; String_ := s; Interface := i |}.

Definition Skip : Field := mkField "" SkipType 0 "" INil.
Definition Bool (key : string) (val : bool) : Field :=
  mkField key BoolType (if val then 1 else 0) "" INil.
Definition Int64 (key : string) (val : Z) : Field := mkField key Int64Type val "" INil.
Definition Int (key : string) (val : Z) : Field := Int64 key val.
Definition String (key val : string) : Field := mkField key StringType 0 val INil.
Definition Reflect (key : string) (val : Value) : Field :=
  mkField key ReflectType 0 "" (IValue val).

(** [zap.Object] stores the marshaler it is given, whatever it is. *)
Definition Object (key : string) (val : Iface) : Field :=
  mkField key ObjectMarshalerType 0 "" val.
Definition Inline (val : Iface) : Field := mkField "" InlineMarshalerType 0 "" val.

(** [zap.Any] picks the constructor from the dynamic type of the value. *)
Definition Any (key : string) (value : Value) : Field :=
  match value with
  | VBool b => Bool key b
  | VInt n => Int key n
  | VString s => String key s
  | VNil | VReflect _ => Reflect key value
  end.
End zap.

(** ** The JSON encoder of [zapcore] *)

(** [zapcore.EncoderConfig], with the keys and the level encoder.  The time
    and caller encoders are those [NewEncoderConfig] sets (RFC 3339 with
    nanoseconds, short caller); the entry carries their output. *)
Record EncoderConfig (E : Type) : Type := {
  TimeKey : string;
  LevelKey : string;
  NameKey : string;
  CallerKey : string;
  MessageKey : string;
  StacktraceKey : string;
  LineEnding : string;
  EncodeLevel : option (Level -> E -> E);
}.
Arguments TimeKey {E} _.
Arguments LevelKey {E} _.
Arguments NameKey {E} _.
Arguments CallerKey {E} _.
Arguments MessageKey {E} _.
Arguments StacktraceKey {E} _.
Arguments LineEnding {E} _.
Arguments EncodeLevel {E} _.

Definition DefaultLineEnding : string := String.String "010"%char "".

(** [Level.String], the fall-back when the level encoder writes nothing. *)
Definition Level_String (l : Level) : string :=
  if bool_decide (l = DebugLevel) then "debug"
  else if bool_decide (l = InfoLevel) then "info"
  else if bool_decide (l = WarnLevel) then "warn"
  else if bool_decide (l = ErrorLevel) then "error"
  else if bool_decide (l = DPanicLevel) then "dpanic"
  else if bool_decide (l = PanicLevel) then "panic"
  else if bool_decide (l = FatalLevel) then "fatal"
  else "Level(" +:+ pretty l +:+ ")".

(** [zapcore.jsonEncoder]: the bytes accumulated so far, the spacing flag
    and the number of open namespaces. *)
Record jsonEncoder : Type := {
  buf : string;
  spaced : bool;
  openNamespaces : nat;
}.

Module json.
Definition quote_byte : ascii := Ascii.ascii_of_nat 34.
Definition backslash_byte : ascii := Ascii.ascii_of_nat 92.
Definition quote : string := String.String quote_byte "".
Definition backslash : string := String.String backslash_byte "".

Definition append (s : string) (enc : jsonEncoder) : jsonEncoder :=
  {| buf := buf enc +:+ s; spaced := spaced enc; openNamespaces := openNamespaces enc |}.

Fixpoint last_byte (s : string) : option ascii :=
  match s with
  | "" => None
  | String.String c "" => Some c
  | String.String _ s => last_byte s
  end.

Definition hex_digit (n : N) : ascii :=
  match String.get (N.to_nat n) "0123456789abcdef" with
  | Some c => c
  | None => "0"%char
  end.

(** One byte of [safeAddString]: quotes, backslashes and control bytes
    are escaped.  Bytes from 0x80 on pass through, as they do in valid
    UTF-8 text. *)
Definition safe_byte (c : ascii) : string :=
  let n := Ascii.N_of_ascii c in
  if bool_decide (c = backslash_byte) || bool_decide (c = quote_byte) then
    String.String backslash_byte (String.String c "")
  else if bool_decide (n = 10)%N then backslash +:+ "n"
  else if bool_decide (n = 13)%N then backslash +:+ "r"
  else if bool_decide (n = 9)%N then backslash +:+ "t"
  else if bool_decide (n < 32)%N then
    backslash +:+ "u00" +:+ String.String (hex_digit (N.shiftr n 4))
                 (String.String (hex_digit (N.land n 15)) "")
  else String.String c "".

Fixpoint safe_string (s : string) : string :=
  match s with
  | "" => ""
  | String.String c s => safe_byte c +:+ safe_string s
  end.

Definition safeAddString (s : string) (enc : jsonEncoder) : jsonEncoder :=
  append (safe_string s) enc.

Definition addElementSeparator (enc : jsonEncoder) : jsonEncoder :=
  match last_byte (buf enc) with
  | None => enc
  | Some c =>
      if bool_decide (c ∈ ["{"; "["; ":"; ","; " "]%char) then enc
      else
        let enc := append "," enc in
        if spaced enc then append " " enc else enc
  end.

Definition addKey (key : string) (enc : jsonEncoder) : jsonEncoder :=
  let enc := addElementSeparator enc in
  let enc := append quote enc in
  let enc := safeAddString key enc in
  let enc := append quote enc in
  let enc := append ":" enc in
  if spaced enc then append " " enc else enc.

Definition AppendString (val : string) (enc : jsonEncoder) : jsonEncoder :=
  let enc := addElementSeparator enc in
  let enc := append quote enc in
  let enc := safeAddString val enc in
  append quote enc.

Definition AppendInt64 (val : Z) (enc : jsonEncoder) : jsonEncoder :=
  append (pretty val) (addElementSeparator enc).

Definition AppendBool (val : bool) (enc : jsonEncoder) : jsonEncoder :=
  append (if val then "true" else "false") (addElementSeparator enc).

Definition closeOpenNamespaces (enc : jsonEncoder) : jsonEncoder :=
  {| buf := buf enc +:+ String.concat "" (replicate (openNamespaces enc) "}");
     spaced := spaced enc; openNamespaces := 0 |}.

Definition AppendObject (obj : jsonEncoder -> Res (jsonEncoder * option error))
    (enc : jsonEncoder) : Res (jsonEncoder * option error) :=
  let old := openNamespaces enc in
  let enc := {| buf := buf enc; spaced := spaced enc; openNamespaces := 0 |} in
  let enc := append "{" (addElementSeparator enc) in
  res_bind (obj enc) (fun '(enc, err) =>
    let enc := closeOpenNamespaces (append "}" enc) in
    Ok ({| buf := buf enc; spaced := spaced enc; openNamespaces := old |}, err)).

(** [AddReflected]: [nil] is written as [null]; a failure of the
    reflective encoder is returned before the key is written. *)
Definition AddReflected (key : string) (obj : Value) (enc : jsonEncoder)
    : jsonEncoder * option error :=
  match obj with
  | VNil => (append "null" (addKey key enc), None)
  | VBool b => (append (if b then "true" else "false") (addKey key enc), None)
  | VInt n => (append (pretty n) (addKey key enc), None)
  | VString s => (append (quote +:+ safe_string s +:+ quote) (addKey key enc), None)
  | VReflect (inl bytes) => (append bytes (addKey key enc), None)
  | VReflect (inr err) => (enc, Some err)
  end.
End json.

Global Instance jsonEncoder_ObjectEncoder : ObjectEncoder jsonEncoder := {|
  AddBool key val enc := json.AppendBool val (json.addKey key enc);
  AddInt64 key val enc := json.AppendInt64 val (json.addKey key enc);
  AddString key val enc := json.AppendString val (json.addKey key enc);
  AddReflected := json.AddReflected;
  AddObject key obj enc := json.AppendObject obj (json.addKey key enc);
  AppendString := json.AppendString;
|}.

(** ** Package [zapcl]: severities and the encoder configuration *)

Import logtypepb.

(** [var levelToSeverity = map[zapcore.Level]logtypepb.LogSeverity{...}] *)
Definition levelToSeverity : gmap Z LogSeverity :=
  list_to_map [
    (DebugLevel, LogSeverity_DEBUG);
    (InfoLevel, LogSeverity_INFO);
    (WarnLevel, LogSeverity_WARNING);
    (ErrorLevel, LogSeverity_ERROR);
    (DPanicLevel, LogSeverity_CRITICAL);
    (PanicLevel, LogSeverity_ALERT);
    (FatalLevel, LogSeverity_EMERGENCY)
  ].

(** Go's [m[k]]: the value stored under [k], the zero value otherwise. *)
Definition severity_at (lvl : Level) : LogSeverity :=
  default LogSeverity_DEFAULT (levelToSeverity !! lvl).

(** [func levelEncoder(lvl, enc)] *)
Definition levelEncoder {E} `{ObjectEncoder E} (lvl : Level) (enc : E) : E :=
  AppendString (logtypepb.String (severity_at lvl)) enc.

(** [func NewEncoderConfig() zapcore.EncoderConfig] *)
Definition NewEncoderConfig {E} `{ObjectEncoder E} : EncoderConfig E := {|
  TimeKey := "time";
  LevelKey := "severity";
  NameKey := "logger";
  CallerKey := "caller";
  MessageKey := "message";
  StacktraceKey := "stacktrace";
  LineEnding := DefaultLineEnding;
  EncodeLevel := Some levelEncoder;
|}.

(** ** The JSON encoder as a [zapcore.Encoder] *)

Module jsonenc.
Import json.

(** [clone]: a new encoder with the same settings and an empty buffer. *)
Definition clone (enc : jsonEncoder) : jsonEncoder :=
  {| buf := ""; spaced := spaced enc; openNamespaces := openNamespaces enc |}.

(** [Clone]: [clone], then the bytes of the original are copied. *)
Definition Clone (enc : jsonEncoder) : jsonEncoder := append (buf enc) (clone enc).

Definition nonempty (s : string) : bool := negb (bool_decide (s = "")).

Definition encode_level (cfg : EncoderConfig jsonEncoder) (ent : Entry)
    (final : jsonEncoder) : jsonEncoder :=
  match EncodeLevel cfg with
  | Some encodeLevel =>
      if nonempty (LevelKey cfg) then
        let final := addKey (LevelKey cfg) final in
        let cur := String.length (buf final) in
        let final := encodeLevel (Level_ ent) final in
        if bool_decide (cur = String.length (buf final))
        then AppendString (Level_String (Level_ ent)) final
        else final
      else final
  | None => final
  end.

Definition encode_time (cfg : EncoderConfig jsonEncoder) (ent : Entry)
    (final : jsonEncoder) : jsonEncoder :=
  if nonempty (TimeKey cfg) then
    let final := addElementSeparator (addKey (TimeKey cfg) final) in
    append quote (append (Time ent) (append quote final))
  else final.

Definition encode_name (cfg : EncoderConfig jsonEncoder) (ent : Entry)
    (final : jsonEncoder) : jsonEncoder :=
  if nonempty (LoggerName ent) && nonempty (NameKey cfg) then
    AppendString (LoggerName ent) (addKey (NameKey cfg) final)
  else final.

Definition encode_caller (cfg : EncoderConfig jsonEncoder) (ent : Entry)
    (final : jsonEncoder) : jsonEncoder :=
  if Defined_ (Caller ent) && nonempty (CallerKey cfg) then
    AppendString (TrimmedPath (Caller ent)) (addKey (CallerKey cfg) final)
  else final.

Definition encode_message (cfg : EncoderConfig jsonEncoder) (ent : Entry)
    (final : jsonEncoder) : jsonEncoder :=
  if nonempty (MessageKey cfg) then
    AppendString (Message ent) (addKey (MessageKey cfg) final)
  else final.

(** The accumulated context of the receiver is copied after the entry's
    own keys. *)
Definition encode_context (enc final : jsonEncoder) : jsonEncoder :=
  if nonempty (buf enc) then append (buf enc) (addElementSeparator final) else final.

Definition encode_stack (cfg : EncoderConfig jsonEncoder) (ent : Entry)
    (final : jsonEncoder) : jsonEncoder :=
  if nonempty (Stack ent) && nonempty (StacktraceKey cfg) then
    AddString (StacktraceKey cfg) (Stack ent) final
  else final.

(** [func (enc *jsonEncoder) EncodeEntry(ent, fields)]: the receiver is
    left as it was, and the JSON encoder reports no error of its own. *)
Definition EncodeEntry (cfg : EncoderConfig jsonEncoder) (enc : jsonEncoder)
    (ent : Entry) (fields : list Field) : Res (jsonEncoder * (string + error)) :=
  let final := append "{" (clone enc) in
  let final := encode_level cfg ent final in
  let final := encode_time cfg ent final in
  let final := encode_name cfg ent final in
  let final := encode_caller cfg ent final in
  let final := encode_message cfg ent final in
  let final := encode_context enc final in
  res_bind (addFields final fields) (fun final =>
    let final := closeOpenNamespaces final in
    let final := encode_stack cfg ent final in
    let final := append (LineEnding cfg) (append "}" final) in
    Ok (enc, inl (buf final))).

(** [zapcore.NewJSONEncoder(cfg)]: an empty buffer, no spacing. *)
Definition NewJSONEncoder : jsonEncoder :=
  {| buf := ""; spaced := false; openNamespaces := 0 |}.
End jsonenc.

(** The JSON encoders of this program all carry [NewEncoderConfig]. *)
Global Instance jsonEncoder_Encoder : Encoder jsonEncoder := {|
  Clone := jsonenc.Clone;
  EncodeEntry := jsonenc.EncodeEntry NewEncoderConfig;
|}.

(** ** The store: encoders and sinks behind pointers *)

Abbreviation loc := positive.

(** What a sink has been asked to do so far. *)
Inductive SinkEvent : Type :=
  | EvWrite (p : string)
  | EvSync.

(** A [zapcore.WriteSyncer]: its answers to [Write] and [Sync], which may
    depend on everything it was asked before, and that history. *)
Record WriteSyncer : Type := {
  on_Write : list SinkEvent -> string -> Z * option error;
  on_Sync : list SinkEvent -> option error;
  history : list SinkEvent;
}.

Definition record_event (ev : SinkEvent) (s : WriteSyncer) : WriteSyncer :=
  {| on_Write := on_Write s; on_Sync := on_Sync s; history := history s ++ [ev] |}.

Record World (E : Type) : Type := {
  encs : gmap loc E;
  sinks : gmap loc WriteSyncer;
}.
Arguments encs {E} _.
Arguments sinks {E} _.

(** A computation on the store that returns a value or panics. *)
Definition M (E A : Type) : Type := World E -> Res (A * World E).

Definition ret {E A} (a : A) : M E A := fun w => Ok (a, w).

Definition bind {E A B} (m : M E A) (k : A -> M E B) : M E B :=
  fun w => match m w with
           | Ok (a, w) => k a w
           | Panic msg => Panic msg
           end.

Definition panic {E A} (msg : string) : M E A := fun _ => Panic msg.

Definition lift {E A} (r : Res A) : M E A :=
  fun w => match r with
           | Ok a => Ok (a, w)
           | Panic msg => Panic msg
           end.

Declare Scope go_scope.
Delimit Scope go_scope with go.
Notation "x <- m ;; k" := (bind m (fun x => k))
  (at level 100, m at next level, right associativity) : go_scope.
Notation "m ;;; k" := (bind m (fun _ => k))
  (at level 100, right associativity) : go_scope.
Open Scope go_scope.

Section Store.
Context {E : Type}.

(** Reading through a pointer to no object panics. *)
Definition load_enc (l : loc) : M E E :=
  fun w => match encs w !! l with
           | Some e => Ok (e, w)
           | None => Panic nil_deref
           end.

Definition store_enc (l : loc) (e : E) : M E unit :=
  fun w => Ok (tt, {| encs := <[l := e]> (encs w); sinks := sinks w |}).

(** A new encoder object, at an address not in use. *)
Definition alloc_enc (e : E) : M E loc :=
  fun w => let l := fresh (dom (encs w)) in
           Ok (l, {| encs := <[l := e]> (encs w); sinks := sinks w |}).

(** [ws.Write(p)] *)
Definition ws_Write (l : loc) (p : string) : M E (Z * option error) :=
  fun w => match sinks w !! l with
           | Some s =>
               Ok (on_Write s (history s) p,
                   {| encs := encs w; sinks := <[l := record_event (EvWrite p) s]> (sinks w) |})
           | None => Panic nil_deref
           end.

(** [ws.Sync()] *)
Definition ws_Sync (l : loc) : M E (option error) :=
  fun w => match sinks w !! l with
           | Some s =>
               Ok (on_Sync s (history s),
                   {| encs := encs w; sinks := <[l := record_event EvSync s]> (sinks w) |})
           | None => Panic nil_deref
           end.
End Store.

(** ** The record core *)

(** [type Core struct]: the embedded level enabler (an interface, nil when
    unset), pointers to the encoder and to the sink, the accumulated
    fields and the initial-field map (nil when unset). *)
Record Core : Type := {
  LevelEnabler_ : option LevelEnabler;
  enc : loc;
  ws : loc;
  fields : list Field;
  initFields : option (gmap string Value);
}.

(** [zapcore.CheckedEntry]: the entry and the cores that will write it. *)
Record CheckedEntry : Type := {
  ce_Entry : Entry;
  cores : list Core;
}.

(** [func (ce *CheckedEntry) AddCore(ent, core)]; [None] is the nil
    pointer. *)
Definition AddCore (ce : option CheckedEntry) (ent : Entry) (core : Core) : option CheckedEntry :=
  match ce with
  | None => Some {| ce_Entry := ent; cores := [core] |}
  | Some ce => Some {| ce_Entry := ce_Entry ce; cores := cores ce ++ [core] |}
  end.

(** [func knownSyncError(err error) bool] *)
Definition knownSyncError (err : error) : bool :=
  if errors.Is err unix.EINVAL
     || errors.Is err unix.ENOTSUP
     || errors.Is err unix.ENOTTY
     || errors.Is err unix.EBADF
  then true
  else false.

Section CoreOps.
Context {E : Type} `{Encoder E}.

(** [func (c *Core) clone() *Core]: only [fields], [enc] and [ws] are
    set; the level enabler and the initial-field map stay at their zero
    value. *)
Definition clone (c : Core) : M E Core :=
  e <- load_enc (enc c);;
  l <- alloc_enc (Clone e);;
  ret {| LevelEnabler_ := None;
         enc := l;
         ws := ws c;
         fields := fields c;
         initFields := None |}.

(** [func (c *Core) With(fields []zapcore.Field) zapcore.Core] *)
Definition With (c : Core) (fs : list Field) : M E Core :=
  clone <- clone c;;
  e <- load_enc (enc clone);;
  e <- lift (addFields e fs);;
  store_enc (enc clone) e;;;
  ret clone.

(** [c.Enabled(lvl)], promoted from the embedded interface: a call on a
    nil interface panics. *)
Definition Enabled (c : Core) (lvl : Level) : M E bool :=
  match LevelEnabler_ c with
  | Some enab => ret (enab lvl)
  | None => panic nil_deref
  end.

(** [func (c *Core) Check(ent, ce) *zapcore.CheckedEntry] *)
Definition Check (c : Core) (ent : Entry) (ce : option CheckedEntry)
    : M E (option CheckedEntry) :=
  enabled <- Enabled c (Level_ ent);;
  if enabled : bool then ret (AddCore ce ent c) else ret ce.

(** [func (c *Core) Sync() error] *)
Definition Sync (c : Core) : M E (option error) :=
  err <- ws_Sync (ws c);;
  match err with
  | Some err =>
      if negb (knownSyncError err)
      then ret (Some (fmt.Errorf "faild to sync logger" err))
      else ret None
  | None => ret None
  end.

(** [func (c *Core) Write(ent, fields) error] *)
Definition Write (c : Core) (ent : Entry) (fs : list Field) : M E (option error) :=
  e <- load_enc (enc c);;
  e <- lift (addFields e (fields c));;
  store_enc (enc c) e;;;
  r <- lift (EncodeEntry e ent fs);;
  store_enc (enc c) (fst r);;;
  match snd r with
  | inr err => ret (Some (fmt.Errorf "could not encode entry" err))
  | inl bytes =>
      wr <- ws_Write (ws c) bytes;;
      match snd wr with
      | Some err => ret (Some (fmt.Errorf "could not write buf" err))
      | None =>
          if bool_decide (ErrorLevel < Level_ ent)
          then Sync c;;; ret None
          else ret None
      end
  end.

(** *** The stock core of [zapcore] *)

(** [zapcore.ioCore] has an enabler, an encoder and a sink, and no field
    list. *)
Record ioCore : Type := {
  io_LevelEnabler : option LevelEnabler;
  io_enc : loc;
  io_out : loc;
}.

(** [zapcore.NewCore(enc, ws, enab)] *)
Definition zapcore_NewCore (enc ws : loc) (enab : option LevelEnabler) : ioCore :=
  {| io_LevelEnabler := enab; io_enc := enc; io_out := ws |}.

(** [func (c *ioCore) Write(ent, fields) error]: the entry is encoded
    with the encoder as it is. *)
Definition ioCore_Write (c : ioCore) (ent : Entry) (fs : list Field) : M E (option error) :=
  e <- load_enc (io_enc c);;
  r <- lift (EncodeEntry e ent fs);;
  store_enc (io_enc c) (fst r);;;
  match snd r with
  | inr err => ret (Some err)
  | inl bytes =>
      wr <- ws_Write (io_out c) bytes;;
      match snd wr with
      | Some err => ret (Some err)
      | None =>
          if bool_decide (ErrorLevel < Level_ ent)
          then ws_Sync (io_out c);;; ret None
          else ret None
      end
  end.
End CoreOps.

(** ** Construction of a core *)

(** [type Option interface], whose [apply] changes a core, with the two options the
    package offers. *)
Inductive Option : Type :=
  | WithInitialFields (fields : option (gmap string Value))
  | WithWriteSyncer (ws : loc).

Definition apply (opt : Option) (c : Core) : Core :=
  match opt with
  | WithInitialFields fs =>
      {| LevelEnabler_ := LevelEnabler_ c; enc := enc c; ws := ws c;
         fields := fields c; initFields := fs |}
  | WithWriteSyncer ws' =>
      {| LevelEnabler_ := LevelEnabler_ c; enc := enc c; ws := ws';
         fields := fields c; initFields := initFields c |}
  end.

(** [len(m)] and [m[k]] on a map that may be nil. *)
Definition map_len (m : option (gmap string Value)) : nat :=
  match m with Some m => size m | None => 0%nat end.

Definition map_index (m : option (gmap string Value)) (k : string) : Value :=
  match m with Some m => default VNil (m !! k) | None => VNil end.

(** [sort.Strings]: the keys in increasing byte-wise order. *)
Definition sort_Strings (keys : list string) : list string := merge_sort String.le keys.

Section Construction.
(** The descriptor [monitoredresource.Detect()] returns. *)
Variable Detect : Resource.

(** The order in which [for k := range m] visits the keys of [m]; Go
    leaves it unspecified. *)
Variable range_keys : option (gmap string Value) -> list string.

(** [func newCore(ws, enab, opts ...Option) *Core] *)
Definition newCore (ws0 : loc) (enab : option LevelEnabler) (opts : list Option)
    : M jsonEncoder Core :=
  l <- alloc_enc jsonenc.NewJSONEncoder;;
  let core := {| LevelEnabler_ := enab; enc := l; ws := ws0;
                 fields := []; initFields := None |} in
  let core := fold_left (fun c opt => apply opt c) opts core in
  let res := Detect in
  let fields0 := [zap.String (res_Type res) (res_LogID res); zap.Inline (IResource res)] in
  let fields1 :=
    if bool_decide (0 < map_len (initFields core))%nat then
      let keys := sort_Strings (range_keys (initFields core)) in
      let fs := map (fun k => zap.Any k (map_index (initFields core) k)) keys in
      fields0 ++ fs
    else fields0 in
  ret {| LevelEnabler_ := LevelEnabler_ core; enc := enc core; ws := ws core;
         fields := fields1; initFields := initFields core |}.

(** [func NewCore(ws, enab, opts ...Option) zapcore.Core] *)
Definition NewCore (ws0 : loc) (enab : option LevelEnabler) (opts : list Option)
    : M jsonEncoder ioCore :=
  core <- newCore ws0 enab opts;;
  ret (zapcore_NewCore (enc core) (ws core) (LevelEnabler_ core)).

(** The function [WrapCore] hands to [zap.WrapCore]; [nop] is the address
    of its [nopWriteSyncer{}] and [c] the wrapped core, used as the
    level enabler. *)
Definition WrapCore (opts : list Option) (nop : loc) (c : option LevelEnabler)
    : M jsonEncoder ioCore :=
  core <- newCore nop c opts;;
  ret (zapcore_NewCore (enc core) (ws core) (LevelEnabler_ core)).
End Construction.

(** ** The source-location field *)

Definition SourceLocationKey : string := "logging.googleapis.com/sourceLocation".

(** [strings.TrimPrefix] *)
Definition TrimPrefix (s prefix : string) : string :=
  if String.prefix prefix s
  then String.substring (String.length prefix) (String.length s - String.length prefix) s
  else s.

Section Source.
(** The symbol resolver [FuncForPC] of the package: the name of the
    function at a program counter, or nothing. *)
Variable FuncForPC : Z -> option string.

(** [filepath.Join(build.Default.GOPATH, "src")] *)
Variable gopath_src : string.

(** [func newSource(pc, file, line, ok) *sourceLocation]; [None] is the
    nil pointer. *)
Definition newSource (pc : Z) (file : string) (line : Z) (ok : bool) : option sourceLocation :=
  if negb ok then None
  else
    let function :=
      match FuncForPC pc with
      | Some name => TrimPrefix name (gopath_src +:+ "/")
      | None => ""
      end in
    Some {| sl_embedded := Some {| File := file; Line := line; Function := function |} |}.

(** [func SourceLocation(pc, file, line, ok) zapcore.Field] *)
Definition SourceLocation (pc : Z) (file : string) (line : Z) (ok : bool) : Field :=
  zap.Object SourceLocationKey (ISourceLocation (newSource pc file line ok)).
End Source.

(** ** Definitions used to state the properties *)

(** The four error conditions a flush of a character device is known to
    raise. *)
Definition benign_errnos : list error :=
  [unix.EINVAL; unix.ENOTSUP; unix.ENOTTY; unix.EBADF].

(** A flush error is benign when one of the four conditions occurs in its
    chain of causes. *)
Definition benign (err : error) : Prop :=
  ∃ target, target ∈ benign_errnos ∧ target ∈ errors.chain err.

(** What [Write] reports, from the outcome of the encoding and the answer
    of the sink alone. *)
Definition Write_result (encoded : string + error) (written : string -> option error)
    : option error :=
  match encoded with
  | inr err => Some (WrapError "could not encode entry" err)
  | inl bytes =>
      match written bytes with
      | Some err => Some (WrapError "could not write buf" err)
      | None => None
      end
  end.

(** The history of the sink at an address. *)
Definition history_at {E} (w : World E) (l : loc) : option (list SinkEvent) :=
  history <$> sinks w !! l.

(** The keys of a map that may be nil. *)
Definition map_keys (m : option (gmap string Value)) : list string :=
  match m with Some m => (map_to_list m).*1 | None => [] end.

(** The initial-field map in effect after the options are applied: the
    one of the last [WithInitialFields]. *)
Definition initFields_of (opts : list Option) : option (gmap string Value) :=
  fold_left (fun m opt => match opt with WithInitialFields fs => fs | _ => m end) opts None.

(** The sink in effect after the options are applied. *)
Definition ws_of (ws0 : loc) (opts : list Option) : loc :=
  fold_left (fun l opt => match opt with WithWriteSyncer l' => l' | _ => l end) opts ws0.

(** An encoder whose [EncodeEntry] always fails, as a test double. *)
Definition failingObjectEncoder : ObjectEncoder unit := {|
  AddBool _ _ e := e;
  AddInt64 _ _ e := e;
  AddString _ _ e := e;
  AddReflected _ _ e := (e, None);
  AddObject _ obj e := obj e;
  AppendString _ e := e;
|}.

Definition failingEncoder : @Encoder unit failingObjectEncoder := {|
  Clone e := e;
  EncodeEntry e _ _ := Ok (e, inr (ErrorString "encoder out of order"));
|}.

(** Sinks used in examples: one that accepts every write and whose flush
    fails with the given answer. *)
Definition sink_with (flush : option error) : WriteSyncer := {|
  on_Write _ p := (Z.of_nat (String.length p), None);
  on_Sync _ := flush;
  history := [];
|}.

Definition example_entry (lvl : Level) : Entry := {|
  Level_ := lvl;
  Time := "2022-04-01T00:00:00Z";
  LoggerName := "";
  Message := "hello";
  Caller := {| Defined_ := false; TrimmedPath := "" |};
  Stack := "";
|}.

Definition example_resource : Resource := {|
  res_Type := "gce_instance";
  res_LogID := "app";
  res_Labels := [("zone", "us-central1-a")];
|}.

(** * Properties *)

(** ** The severity table *)

Lemma levelToSeverity_lookup_Some (lvl : Level) (s : LogSeverity) :
  levelToSeverity !! lvl = Some s → lvl ∈ defined_levels.
Proof.
  unfold levelToSeverity, defined_levels. cbn [list_to_map foldr uncurry fst snd].
  intros Hl.
  repeat (apply lookup_insert_Some in Hl as [[<- _]|[_ Hl]]; [set_solver|]).
  by rewrite lookup_empty in Hl.
Qed.

Lemma defined_levels_cases (lvl : Level) :
  lvl ∈ defined_levels →
  lvl = DebugLevel ∨ lvl = InfoLevel ∨ lvl = WarnLevel ∨ lvl = ErrorLevel
  ∨ lvl = DPanicLevel ∨ lvl = PanicLevel ∨ lvl = FatalLevel.
Proof. unfold defined_levels. set_solver. Qed.

(** C6: the table maps each of the seven levels to the severity listed, it
    has no other key, no two levels share a severity, and the level encoder
    appends the name of that severity. *)
Theorem levelToSeverity_total_injective :
  (levelToSeverity !! DebugLevel = Some LogSeverity_DEBUG
   ∧ levelToSeverity !! InfoLevel = Some LogSeverity_INFO
   ∧ levelToSeverity !! WarnLevel = Some LogSeverity_WARNING
   ∧ levelToSeverity !! ErrorLevel = Some LogSeverity_ERROR
   ∧ levelToSeverity !! DPanicLevel = Some LogSeverity_CRITICAL
   ∧ levelToSeverity !! PanicLevel = Some LogSeverity_ALERT
   ∧ levelToSeverity !! FatalLevel = Some LogSeverity_EMERGENCY)
  ∧ (∀ lvl, lvl ∈ defined_levels ↔ is_Some (levelToSeverity !! lvl))
  ∧ (∀ l1 l2 s,
       levelToSeverity !! l1 = Some s → levelToSeverity !! l2 = Some s → l1 = l2)
  ∧ (∀ (E : Type) (OE : ObjectEncoder E) (enc : E) lvl s,
       levelToSeverity !! lvl = Some s →
       levelEncoder lvl enc = AppendString (logtypepb.String s) enc).
Proof.
  split; [by repeat split|].
  split; [|split].
  - intros lvl. split.
    + intros Hin. apply defined_levels_cases in Hin.
      destruct Hin as [->|[->|[->|[->|[->|[->| ->]]]]]]; by eexists.
    + intros [s Hs]. by eapply levelToSeverity_lookup_Some.
  - intros l1 l2 s H1 H2.
    pose proof (levelToSeverity_lookup_Some _ _ H1) as C1.
    pose proof (levelToSeverity_lookup_Some _ _ H2) as C2.
    apply defined_levels_cases in C1, C2.
    destruct C1 as [->|[->|[->|[->|[->|[->| ->]]]]]];
      vm_compute in H1; injection H1 as <-;
      destruct C2 as [->|[->|[->|[->|[->|[->| ->]]]]]];
      vm_compute in H2; first [reflexivity | discriminate H2].
  - intros E OE enc lvl s Hs. unfold levelEncoder, severity_at. by rewrite Hs.
Qed.

Lemma levelToSeverity_total_injective_witness :
  levelToSeverity !! PanicLevel = Some LogSeverity_ALERT
  ∧ levelToSeverity !! 4 = Some LogSeverity_ALERT
  ∧ PanicLevel = 4.
Proof.
  split; [reflexivity|]. split; [reflexivity|].
  apply (proj1 (proj2 (proj2 levelToSeverity_total_injective))
           PanicLevel 4 LogSeverity_ALERT); reflexivity.
Defined.

(** ** Flush errors *)

Lemma errors_Is_chain (err target : error) :
  errors.Is err target = true ↔ target ∈ errors.chain err.
Proof.
  induction err as [code|text|prefix inner IH]; cbn [errors.Is errors.chain].
  - rewrite orb_false_r, bool_decide_eq_true. set_solver.
  - rewrite orb_false_r, bool_decide_eq_true. set_solver.
  - rewrite orb_true_iff, bool_decide_eq_true, IH. set_solver.
Qed.

Lemma knownSyncError_benign (err : error) :
  knownSyncError err = true ↔ benign err.
Proof.
  unfold knownSyncError, benign, benign_errnos.
  destruct (errors.Is err unix.EINVAL) eqn:H1;
    [|destruct (errors.Is err unix.ENOTSUP) eqn:H2;
      [|destruct (errors.Is err unix.ENOTTY) eqn:H3;
        [|destruct (errors.Is err unix.EBADF) eqn:H4]]]; cbn [orb].
  1-4: split; [intros _|done]; eexists; split;
         [|eapply errors_Is_chain; eassumption]; set_solver.
  split; [done|]. intros (target & Hin & Hchain).
  apply errors_Is_chain in Hchain.
  repeat (apply elem_of_cons in Hin as [->|Hin]; [congruence|]).
  by apply elem_of_nil in Hin.
Qed.

Lemma knownSyncError_not_benign (err : error) :
  knownSyncError err = false ↔ ¬ benign err.
Proof.
  rewrite <- knownSyncError_benign. by destruct (knownSyncError err).
Qed.

(** ** [Sync] *)

Section SyncProps.
Context {E : Type}.

Lemma Sync_run (c : Core) (w : World E) (s : WriteSyncer) :
  sinks w !! ws c = Some s →
  Sync c w =
    Ok (match on_Sync s (history s) with
        | Some err =>
            if knownSyncError err then None
            else Some (WrapError "faild to sync logger" err)
        | None => None
        end,
        {| encs := encs w; sinks := <[ws c := record_event EvSync s]> (sinks w) |}).
Proof.
  intros Hs. unfold Sync, bind, ws_Sync. rewrite Hs.
  destruct (on_Sync s (history s)) as [err|]; [|reflexivity].
  by destruct (knownSyncError err).
Qed.

(** C2: [Sync] asks the sink to flush once.  It returns success exactly
    when the flush succeeds or fails with a benign error, and returns
    every other flush error wrapped. *)
Theorem Sync_benign_or_wrapped (c : Core) (w : World E) (s : WriteSyncer) :
  sinks w !! ws c = Some s →
  ∃ r,
    Sync c w =
      Ok (r, {| encs := encs w; sinks := <[ws c := record_event EvSync s]> (sinks w) |})
    ∧ (r = None ↔
         on_Sync s (history s) = None
         ∨ ∃ err, on_Sync s (history s) = Some err ∧ benign err)
    ∧ (∀ err, on_Sync s (history s) = Some err → ¬ benign err →
         r = Some (WrapError "faild to sync logger" err)
         ∧ errors.Unwrap (WrapError "faild to sync logger" err) = Some err).
Proof.
  intros Hs. eexists. split; [by apply Sync_run|].
  destruct (on_Sync s (history s)) as [err|];
    [|split; [split; [by left|done]|done]].
  destruct (knownSyncError err) eqn:Hk.
  - apply knownSyncError_benign in Hk. split.
    + split; [|done]. intros _. right. by exists err.
    + intros err' [= <-] Hn. by destruct Hn.
  - apply knownSyncError_not_benign in Hk. split.
    + split; [done|]. intros [?|(err' & [= <-] & Hb)]; [done|]. by destruct Hk.
    + by intros err' [= <-] _.
Qed.
End SyncProps.

Definition sync_world (flush : option error) : World jsonEncoder :=
  {| encs := ∅; sinks := {[ 7%positive := sink_with flush ]} |}.

Definition sync_core : Core :=
  {| LevelEnabler_ := None; enc := 1%positive; ws := 7%positive;
     fields := []; initFields := None |}.

Lemma Sync_benign_or_wrapped_witness :
  sinks (sync_world (Some (WrapError "sync /dev/stdout" unix.ENOTTY))) !! ws sync_core
    = Some (sink_with (Some (WrapError "sync /dev/stdout" unix.ENOTTY)))
  ∧ ∃ r,
      Sync sync_core (sync_world (Some (WrapError "sync /dev/stdout" unix.ENOTTY))) =
        Ok (r, {| encs := ∅;
                  sinks := <[7%positive :=
                      record_event EvSync
                        (sink_with (Some (WrapError "sync /dev/stdout" unix.ENOTTY)))]>
                    (sinks (sync_world (Some (WrapError "sync /dev/stdout" unix.ENOTTY)))) |})
      ∧ r = None.
Proof.
  split; [reflexivity|].
  destruct (Sync_benign_or_wrapped sync_core
              (sync_world (Some (WrapError "sync /dev/stdout" unix.ENOTTY)))
              (sink_with (Some (WrapError "sync /dev/stdout" unix.ENOTTY)))
              eq_refl) as (r & Hrun & Hnone & _).
  exists r. split; [exact Hrun|].
  apply Hnone. right. eexists. split; [reflexivity|].
  exists unix.ENOTTY. split.
  - unfold benign_errnos. do 2 constructor 2. constructor 1.
  - cbn. constructor 2. constructor 1.
Defined.

(** ** [Check] and [Write] *)

(** The sink with another answer to [Sync]. *)
Definition with_flush (flush : list SinkEvent -> option error) (s : WriteSyncer) : WriteSyncer :=
  {| on_Write := on_Write s; on_Sync := flush; history := history s |}.

Definition set_sink {E} (l : loc) (s : WriteSyncer) (w : World E) : World E :=
  {| encs := encs w; sinks := <[l := s]> (sinks w) |}.

Definition set_LevelEnabler (enab : option LevelEnabler) (c : Core) : Core :=
  {| LevelEnabler_ := enab; enc := enc c; ws := ws c;
     fields := fields c; initFields := initFields c |}.

Section WriteProps.
Context {E : Type} `{Encoder E}.

Lemma Write_encode_failed (c : Core) (ent : Entry) (fs : list Field) (w : World E)
    (e0 e1 e2 : E) (err : error) :
  encs w !! enc c = Some e0 →
  addFields e0 (fields c) = Ok e1 →
  EncodeEntry e1 ent fs = Ok (e2, inr err) →
  Write c ent fs w =
    Ok (Some (WrapError "could not encode entry" err),
        {| encs := <[enc c := e2]> (encs w); sinks := sinks w |}).
Proof.
  intros He0 He1 He2. unfold Write, bind, load_enc, lift, store_enc.
  rewrite He0, He1. cbn. rewrite He2. cbn.
  by rewrite insert_insert_eq.
Qed.

Lemma Write_encoded (c : Core) (ent : Entry) (fs : list Field) (w : World E)
    (e0 e1 e2 : E) (bytes : string) (s : WriteSyncer) :
  encs w !! enc c = Some e0 →
  addFields e0 (fields c) = Ok e1 →
  EncodeEntry e1 ent fs = Ok (e2, inl bytes) →
  sinks w !! ws c = Some s →
  Write c ent fs w =
    Ok (match snd (on_Write s (history s) bytes) with
        | Some err => Some (WrapError "could not write buf" err)
        | None => None
        end,
        {| encs := <[enc c := e2]> (encs w);
           sinks :=
             <[ws c :=
                 match snd (on_Write s (history s) bytes) with
                 | Some _ => record_event (EvWrite bytes) s
                 | None =>
                     if bool_decide (ErrorLevel < Level_ ent)
                     then record_event EvSync (record_event (EvWrite bytes) s)
                     else record_event (EvWrite bytes) s
                 end]> (sinks w) |}).
Proof.
  intros He0 He1 He2 Hs. unfold Write, bind, load_enc, lift, store_enc, ws_Write.
  rewrite He0, He1. cbn. rewrite He2. cbn. rewrite Hs, insert_insert_eq.
  destruct (on_Write s (history s) bytes) as [n [werr|]]; cbn; [done|].
  case_bool_decide; [|done].
  erewrite Sync_run by (cbn; apply lookup_insert_eq).
  cbn. by rewrite insert_insert_eq.
Qed.

(** C8: when the encoder reports an error, [Write] returns that error
    wrapped and leaves every sink as it was. *)
Theorem Write_encode_error (c : Core) (ent : Entry) (fs : list Field) (w : World E)
    (e0 e1 e2 : E) (err : error) :
  encs w !! enc c = Some e0 →
  addFields e0 (fields c) = Ok e1 →
  EncodeEntry e1 ent fs = Ok (e2, inr err) →
  ∃ w',
    Write c ent fs w = Ok (Some (fmt.Errorf "could not encode entry" err), w')
    ∧ errors.Unwrap (fmt.Errorf "could not encode entry" err) = Some err
    ∧ sinks w' = sinks w.
Proof.
  intros He0 He1 He2. eexists. split; [by eapply Write_encode_failed|]. done.
Qed.

(** C3: at a level above [ErrorLevel], what [Write] returns is fixed by
    the outcome of the encoding and the answer of the sink to the write.
    After a successful write the sink is asked to flush, once; the
    answer of the flush changes nothing in what [Write] returns. *)
Theorem Write_discards_sync_error (c : Core) (ent : Entry) (fs : list Field)
    (w : World E) (e0 e1 e2 : E) (out : string + error) (s : WriteSyncer) :
  ErrorLevel < Level_ ent →
  encs w !! enc c = Some e0 →
  addFields e0 (fields c) = Ok e1 →
  EncodeEntry e1 ent fs = Ok (e2, out) →
  sinks w !! ws c = Some s →
  (∃ w',
     Write c ent fs w =
       Ok (Write_result out (fun bytes => snd (on_Write s (history s) bytes)), w')
     ∧ match out with
       | inl bytes =>
           history_at w' (ws c) =
             Some (history s ++ EvWrite bytes ::
                     match snd (on_Write s (history s) bytes) with
                     | None => [EvSync]
                     | Some _ => []
                     end)
       | inr _ => sinks w' = sinks w
       end)
  ∧ (∀ flush, ∃ w',
       Write c ent fs (set_sink (ws c) (with_flush flush s) w) =
         Ok (Write_result out (fun bytes => snd (on_Write s (history s) bytes)), w')).
Proof.
  intros Hlvl He0 He1 He2 Hs. split.
  - destruct out as [bytes|err].
    + eexists. split; [by eapply Write_encoded|].
      unfold history_at. cbn. rewrite lookup_insert_eq. cbn.
      rewrite bool_decide_eq_true_2 by done.
      destruct (on_Write s (history s) bytes) as [n [werr|]]; cbn; [done|].
      by rewrite <- app_assoc.
    + eexists. split; [by eapply Write_encode_failed|]. done.
  - intros flush. destruct out as [bytes|err].
    + eexists. by erewrite Write_encoded by (first [eassumption | apply lookup_insert_eq]).
    + eexists. by erewrite Write_encode_failed by eassumption.
Qed.

Lemma Check_rejected (c : Core) (ent : Entry) (ce : option CheckedEntry) (w : World E)
    (enab : LevelEnabler) :
  LevelEnabler_ c = Some enab →
  enab (Level_ ent) = false →
  Check c ent ce w = Ok (ce, w).
Proof.
  intros Hc Hen. unfold Check, Enabled, bind, ret. by rewrite Hc, Hen.
Qed.

(** C1, amended: for a level the filter rejects, [Check] returns the
    checked entry it was given, without the core, and changes neither an
    encoder nor a sink.  [Write] does not look at the filter. *)
Theorem Check_rejects_without_effect (c : Core) (ent : Entry) (fs : list Field)
    (ce : option CheckedEntry) (w : World E) (enab : LevelEnabler) :
  LevelEnabler_ c = Some enab →
  enab (Level_ ent) = false →
  Check c ent ce w = Ok (ce, w)
  ∧ ∀ enab', Write (set_LevelEnabler enab' c) ent fs w = Write c ent fs w.
Proof.
  intros Hc Hen. split; [by eapply Check_rejected|]. reflexivity.
Qed.
End WriteProps.

(** *** Concrete runs with the JSON encoder *)

Definition json_world (flush : option error) : World jsonEncoder :=
  {| encs := {[ 1%positive := jsonenc.NewJSONEncoder ]};
     sinks := {[ 7%positive := sink_with flush ]} |}.

Definition example_core (enab : option LevelEnabler) : Core :=
  {| LevelEnabler_ := enab; enc := 1%positive; ws := 7%positive;
     fields := [zap.String "service" "checkout"]; initFields := None |}.

Definition failing_world : World unit :=
  {| encs := {[ 1%positive := tt ]}; sinks := ∅ |}.

Lemma Write_encode_error_witness :
  encs failing_world !! enc (example_core None) = Some tt
  ∧ ∃ w',
      @Write unit failingObjectEncoder failingEncoder
        (example_core None) (example_entry InfoLevel) [] failing_world
      = Ok (Some (fmt.Errorf "could not encode entry" (ErrorString "encoder out of order")), w')
      ∧ errors.Unwrap (fmt.Errorf "could not encode entry" (ErrorString "encoder out of order"))
        = Some (ErrorString "encoder out of order")
      ∧ sinks w' = sinks failing_world.
Proof.
  split; [reflexivity|].
  apply (@Write_encode_error unit failingObjectEncoder failingEncoder
           (example_core None) (example_entry InfoLevel) [] failing_world tt tt tt
           (ErrorString "encoder out of order")); reflexivity.
Defined.

Lemma Write_discards_sync_error_witness :
  ErrorLevel < Level_ (example_entry FatalLevel)
  ∧ sinks (json_world (Some (ErrorString "input/output error"))) !! ws (example_core None)
    = Some (sink_with (Some (ErrorString "input/output error")))
  ∧ ∃ w' bytes,
      Write (example_core None) (example_entry FatalLevel) []
        (json_world (Some (ErrorString "input/output error")))
      = Ok (None, w')
      ∧ history_at w' (ws (example_core None)) = Some [EvWrite bytes; EvSync].
Proof.
  split; [reflexivity|]. split; [reflexivity|].
  edestruct (@Write_discards_sync_error jsonEncoder _ _
               (example_core None) (example_entry FatalLevel) []
               (json_world (Some (ErrorString "input/output error"))))
    as [(w' & Hrun & Hhist) _]; [reflexivity ..|].
  exists w'. eexists. split; [exact Hrun|exact Hhist].
Defined.

Lemma Check_rejects_without_effect_witness :
  LevelEnabler_ (example_core (Some (Level_Enabled ErrorLevel))) = Some (Level_Enabled ErrorLevel)
  ∧ Level_Enabled ErrorLevel (Level_ (example_entry DebugLevel)) = false
  ∧ Check (example_core (Some (Level_Enabled ErrorLevel))) (example_entry DebugLevel) None
      (json_world None)
    = Ok (None, json_world None).
Proof.
  split; [reflexivity|]. split; [reflexivity|].
  apply (proj1 (@Check_rejects_without_effect jsonEncoder _ _
                  (example_core (Some (Level_Enabled ErrorLevel)))
                  (example_entry DebugLevel) [] None (json_world None)
                  (Level_Enabled ErrorLevel) eq_refl eq_refl)).
Defined.

(** C1, as stated, fails: a core whose filter rejects [DebugLevel] is
    asked to write a debug entry; [Write] merges the core's field into the
    encoder and hands the encoded entry to the sink. *)
Lemma Write_ignores_level_filter :
  Level_Enabled ErrorLevel (Level_ (example_entry DebugLevel)) = false
  ∧ ∃ w' bytes,
      Write (example_core (Some (Level_Enabled ErrorLevel))) (example_entry DebugLevel) []
        (json_world None)
      = Ok (None, w')
      ∧ (buf <$> encs (json_world None) !! 1%positive) = Some ""
      ∧ (buf <$> encs w' !! 1%positive) ≠ Some ""
      ∧ history_at (json_world None) 7%positive = Some []
      ∧ history_at w' 7%positive = Some [EvWrite bytes].
Proof.
  split; [reflexivity|].
  eexists. eexists. split; [|split; [|split; [|split]]].
  - erewrite Write_encoded by reflexivity. reflexivity.
  - reflexivity.
  - cbn. rewrite lookup_insert_eq. discriminate.
  - reflexivity.
  - unfold history_at. cbn. rewrite lookup_insert_eq. reflexivity.
Qed.

(** ** [clone] and [With] *)

Section WithProps.
Context {E : Type} `{Encoder E}.

Lemma fresh_enc_unused (w : World E) : encs w !! fresh (dom (encs w)) = None.
Proof. apply not_elem_of_dom, is_fresh. Qed.

Lemma clone_run (c : Core) (w : World E) (e : E) :
  encs w !! enc c = Some e →
  clone c w =
    Ok ({| LevelEnabler_ := None; enc := fresh (dom (encs w)); ws := ws c;
           fields := fields c; initFields := None |},
        {| encs := <[fresh (dom (encs w)) := Clone e]> (encs w); sinks := sinks w |}).
Proof.
  intros He. unfold clone, bind, load_enc, alloc_enc, ret. by rewrite He.
Qed.

Lemma With_run (c : Core) (fs : list Field) (w : World E) (e e' : E) :
  encs w !! enc c = Some e →
  addFields (Clone e) fs = Ok e' →
  With c fs w =
    Ok ({| LevelEnabler_ := None; enc := fresh (dom (encs w)); ws := ws c;
           fields := fields c; initFields := None |},
        {| encs := <[fresh (dom (encs w)) := e']> (encs w); sinks := sinks w |}).
Proof.
  intros He He'. unfold With, bind.
  rewrite (clone_run c w e He). unfold load_enc, lift, store_enc, ret. cbn.
  rewrite lookup_insert_eq, He'. cbn. by rewrite insert_insert_eq.
Qed.

(** What a successful [Write] has read and done. *)
Lemma Write_inv (c : Core) (ent : Entry) (fs : list Field) (w w' : World E)
    (r : option error) :
  Write c ent fs w = Ok (r, w') →
  ∃ e0 e1 e2 out,
    encs w !! enc c = Some e0
    ∧ addFields e0 (fields c) = Ok e1
    ∧ EncodeEntry e1 ent fs = Ok (e2, out)
    ∧ match out with
      | inl _ => is_Some (sinks w !! ws c)
      | inr _ => True
      end.
Proof.
  unfold Write, bind, load_enc, lift, store_enc, ws_Write.
  destruct (encs w !! enc c) as [e0|] eqn:He0; [|done].
  destruct (addFields e0 (fields c)) as [e1|] eqn:He1; [|done]. cbn.
  destruct (EncodeEntry e1 ent fs) as [[e2 out]|] eqn:He2; [|done]. cbn.
  intros Hrun. exists e0, e1, e2, out. do 3 (split; [done|]).
  destruct out as [bytes|err]; [|done]. cbn in Hrun.
  destruct (sinks w !! ws c) as [s|]; [by eexists|done].
Qed.

(** [Write] reads and changes one encoder and one sink: those of its
    core. *)
Lemma Write_frame (c : Core) (ent : Entry) (fs : list Field) (w w' : World E)
    (r : option error) :
  Write c ent fs w = Ok (r, w') →
  (∀ l, l ≠ enc c → encs w' !! l = encs w !! l)
  ∧ (∀ l, l ≠ ws c → sinks w' !! l = sinks w !! l).
Proof.
  intros Hrun.
  destruct (Write_inv _ _ _ _ _ _ Hrun) as (e0 & e1 & e2 & out & He0 & He1 & He2 & Hs).
  destruct out as [bytes|err].
  - destruct Hs as [s Hs].
    rewrite (Write_encoded c ent fs w e0 e1 e2 bytes s He0 He1 He2 Hs) in Hrun.
    injection Hrun as _ <-. cbn.
    split; intros l Hl; by rewrite lookup_insert_ne.
  - rewrite (Write_encode_failed c ent fs w e0 e1 e2 err He0 He1 He2) in Hrun.
    injection Hrun as _ <-. cbn.
    split; intros l Hl; [by rewrite lookup_insert_ne|done].
Qed.

(** What [Write] returns and leaves in its two cells is fixed by what those
    cells held. *)
Lemma Write_local (c : Core) (ent : Entry) (fs : list Field) (w1 w2 w1' : World E)
    (r : option error) :
  encs w2 !! enc c = encs w1 !! enc c →
  sinks w2 !! ws c = sinks w1 !! ws c →
  Write c ent fs w1 = Ok (r, w1') →
  ∃ w2',
    Write c ent fs w2 = Ok (r, w2')
    ∧ encs w2' !! enc c = encs w1' !! enc c
    ∧ sinks w2' !! ws c = sinks w1' !! ws c.
Proof.
  intros Henc Hws Hrun.
  destruct (Write_inv _ _ _ _ _ _ Hrun) as (e0 & e1 & e2 & out & He0 & He1 & He2 & Hs).
  destruct out as [bytes|err].
  - destruct Hs as [s Hs].
    rewrite (Write_encoded c ent fs w1 e0 e1 e2 bytes s He0 He1 He2 Hs) in Hrun.
    injection Hrun as <- <-.
    rewrite <- Henc in He0. rewrite <- Hws in Hs.
    eexists. split; [by eapply Write_encoded|].
    cbn. by rewrite !lookup_insert_eq.
  - rewrite (Write_encode_failed c ent fs w1 e0 e1 e2 err He0 He1 He2) in Hrun.
    injection Hrun as <- <-.
    rewrite <- Henc in He0.
    eexists. split; [by eapply Write_encode_failed|].
    cbn. by rewrite !lookup_insert_eq.
Qed.
End WithProps.

Section DerivedCore.
Context {E : Type} `{Encoder E}.

(** C10: the core [With] returns has no level enabler and no initial-field
    map, whatever [c] has: [clone] sets the encoder, the sink and the field
    list only.  Asking the derived core whether a level is enabled, or to
    check an entry, calls a method of a nil interface and panics. *)
Theorem With_drops_level_filter (c : Core) (fs : list Field) (w : World E) (e e' : E) :
  encs w !! enc c = Some e →
  addFields (Clone e) fs = Ok e' →
  ∃ d w',
    With c fs w = Ok (d, w')
    ∧ LevelEnabler_ d = None
    ∧ initFields d = None
    ∧ ws d = ws c
    ∧ fields d = fields c
    ∧ encs w' !! enc d = Some e'
    ∧ (∀ lvl, Enabled d lvl w' = Panic nil_deref)
    ∧ (∀ ent ce, Check d ent ce w' = Panic nil_deref).
Proof.
  intros He He'. eexists. eexists.
  split; [by eapply With_run|]. cbn.
  do 4 (split; [done|]).
  split; [apply lookup_insert_eq|]. by split.
Qed.

(** C4, amended: [With] returns a core that shares the sink of [c] and
    holds a new encoder, the clone of [c]'s with [fs] merged into it, and
    a copy of [c]'s field list as it is.  The encoder of [c] is not
    changed by [With] nor by a write through the derived core; a write
    through the derived core encodes with the context that holds [fs]; a
    write through [c] after [With] returns and leaves what it would have
    without it, and does not change the encoder of the derived core. *)
Theorem With_shares_sink_clones_encoder (c : Core) (fs : list Field) (w : World E)
    (e e' : E) :
  encs w !! enc c = Some e →
  addFields (Clone e) fs = Ok e' →
  ∃ d w',
    With c fs w = Ok (d, w')
    ∧ ws d = ws c
    ∧ sinks w' = sinks w
    ∧ fields d = fields c
    ∧ encs w !! enc d = None
    ∧ encs w' !! enc d = Some e'
    ∧ encs w' !! enc c = Some e
    ∧ (∀ ent fs2 r w2,
         Write d ent fs2 w' = Ok (r, w2) →
         encs w2 !! enc c = Some e
         ∧ ∃ e1 e2 out,
             addFields e' (fields d) = Ok e1
             ∧ EncodeEntry e1 ent fs2 = Ok (e2, out)
             ∧ encs w2 !! enc d = Some e2)
    ∧ (∀ ent fs2 r w1,
         Write c ent fs2 w = Ok (r, w1) →
         ∃ w1',
           Write c ent fs2 w' = Ok (r, w1')
           ∧ encs w1' !! enc c = encs w1 !! enc c
           ∧ sinks w1' !! ws c = sinks w1 !! ws c
           ∧ encs w1' !! enc d = Some e').
Proof.
  intros He He'.
  pose proof (fresh_enc_unused w) as Hfresh.
  assert (fresh (dom (encs w)) ≠ enc c) as Hne by congruence.
  eexists. eexists.
  split; [by eapply With_run|]. cbn.
  do 4 (split; [done|]).
  split; [apply lookup_insert_eq|].
  split; [by rewrite lookup_insert_ne|].
  split.
  - intros ent fs2 r w2 Hrun.
    destruct (Write_frame _ _ _ _ _ _ Hrun) as [Hencs _]. cbn in Hencs.
    split; [rewrite Hencs by done; cbn; by rewrite lookup_insert_ne|].
    destruct (Write_inv _ _ _ _ _ _ Hrun) as (e0 & e1 & e2 & out & He0 & He1 & He2 & Hs).
    cbn in He0, He1. rewrite lookup_insert_eq in He0. injection He0 as <-.
    exists e1, e2, out. do 2 (split; [done|]).
    destruct out as [bytes|err].
    + destruct Hs as [s Hs].
      erewrite Write_encoded in Hrun by (first [eassumption | apply lookup_insert_eq]).
      injection Hrun as _ <-. cbn. apply lookup_insert_eq.
    + erewrite Write_encode_failed in Hrun
        by (first [eassumption | apply lookup_insert_eq]).
      injection Hrun as _ <-. cbn. apply lookup_insert_eq.
  - intros ent fs2 r w1 Hrun.
    edestruct (Write_local c ent fs2 w
                 {| encs := <[fresh (dom (encs w)) := e']> (encs w); sinks := sinks w |})
      as (w1' & Hrun' & Henc & Hws); [| |exact Hrun|].
    + cbn. by rewrite lookup_insert_ne.
    + done.
    + exists w1'. do 3 (split; [done|]).
      destruct (Write_frame _ _ _ _ _ _ Hrun') as [Hencs _].
      rewrite Hencs by done. cbn. apply lookup_insert_eq.
Qed.
End DerivedCore.

Lemma With_drops_level_filter_witness :
  encs (json_world None) !! enc (example_core (Some (Level_Enabled InfoLevel)))
    = Some jsonenc.NewJSONEncoder
  ∧ ∃ d w',
      With (example_core (Some (Level_Enabled InfoLevel))) [zap.String "k" "v"] (json_world None)
        = Ok (d, w')
      ∧ LevelEnabler_ d = None
      ∧ Check d (example_entry InfoLevel) None w' = Panic nil_deref.
Proof.
  split; [reflexivity|].
  edestruct (@With_drops_level_filter jsonEncoder _ _
               (example_core (Some (Level_Enabled InfoLevel))) [zap.String "k" "v"]
               (json_world None))
    as (d & w' & Hrun & Hnil & _ & _ & _ & _ & _ & Hcheck); [reflexivity ..|].
  exists d, w'. split; [exact Hrun|]. split; [exact Hnil|]. apply Hcheck.
Defined.

Lemma With_shares_sink_clones_encoder_witness :
  encs (json_world None) !! enc (example_core None) = Some jsonenc.NewJSONEncoder
  ∧ ∃ d w' e',
      addFields (Clone jsonenc.NewJSONEncoder) [zap.String "k" "v"] = Ok e'
      ∧ With (example_core None) [zap.String "k" "v"] (json_world None) = Ok (d, w')
      ∧ ws d = ws (example_core None)
      ∧ encs w' !! enc d = Some e'
      ∧ encs w' !! enc (example_core None) = Some jsonenc.NewJSONEncoder.
Proof.
  split; [reflexivity|].
  edestruct (@With_shares_sink_clones_encoder jsonEncoder _ _
               (example_core None) [zap.String "k" "v"] (json_world None))
    as (d & w' & Hrun & Hws & _ & _ & _ & Hd & Hc & _); [reflexivity ..|].
  exists d, w'. eexists. split; [reflexivity|].
  split; [exact Hrun|]. split; [exact Hws|]. split; [exact Hd|exact Hc].
Defined.

(** A string between double quotes. *)
Definition quoted (s : string) : string := json.quote +:+ s +:+ json.quote.

(** C4, as stated, fails: the field list of the derived core is the list of
    [c], not that list extended by the fields given to [With].  The new
    field sits in the derived encoder, so an entry written through the
    derived core carries it before the field of the list. *)
Lemma With_does_not_extend_fields :
  ∃ d w' w2,
    With (example_core None) [zap.String "k" "v"] (json_world None) = Ok (d, w')
    ∧ fields d = fields (example_core None)
    ∧ fields d ≠ fields (example_core None) ++ [zap.String "k" "v"]
    ∧ Write d (example_entry InfoLevel) [] w' = Ok (None, w2)
    ∧ history_at w2 (ws d) =
        Some [EvWrite
                ("{" +:+ quoted "severity" +:+ ":" +:+ quoted "INFO"
                 +:+ "," +:+ quoted "time" +:+ ":" +:+ quoted "2022-04-01T00:00:00Z"
                 +:+ "," +:+ quoted "message" +:+ ":" +:+ quoted "hello"
                 +:+ "," +:+ quoted "k" +:+ ":" +:+ quoted "v"
                 +:+ "," +:+ quoted "service" +:+ ":" +:+ quoted "checkout"
                 +:+ "}" +:+ DefaultLineEnding)].
Proof.
  eexists. eexists. eexists. split; [|split; [|split; [|split]]].
  - erewrite With_run by reflexivity. reflexivity.
  - reflexivity.
  - discriminate.
  - erewrite Write_encoded by (first [apply lookup_insert_eq | reflexivity]).
    reflexivity.
  - unfold history_at. cbn -[String.append]. rewrite lookup_insert_eq. reflexivity.
Qed.

(** ** Construction *)

Lemma apply_options (opts : list Option) (c : Core) :
  fold_left (fun c opt => apply opt c) opts c =
    {| LevelEnabler_ := LevelEnabler_ c;
       enc := enc c;
       ws := ws_of (ws c) opts;
       fields := fields c;
       initFields :=
         fold_left (fun m opt => match opt with WithInitialFields fs => fs | _ => m end)
           opts (initFields c) |}.
Proof.
  revert c. induction opts as [|opt opts IH]; intros c.
  - by destruct c.
  - cbn [fold_left]. rewrite IH. unfold ws_of. by destruct opt.
Qed.

Lemma map_len_zero_keys (m : option (gmap string Value)) :
  ¬ (0 < map_len m)%nat → map_keys m = [].
Proof.
  destruct m as [m|]; [|done]. cbn. intros Hlen.
  assert (size m = 0%nat) as Hz by lia.
  apply map_size_empty_iff in Hz as ->. by rewrite map_to_list_empty.
Qed.

Lemma sort_Strings_sorted (keys : list string) : Sorted String.le (sort_Strings keys).
Proof. apply (Sorted_merge_sort String.le). Qed.

Lemma sort_Strings_perm (keys : list string) : sort_Strings keys ≡ₚ keys.
Proof. apply merge_sort_Permutation. Qed.

(** The sorted list of a set of keys does not depend on the order in which
    the keys were collected. *)
Lemma sort_Strings_order_irrelevant (keys1 keys2 : list string) :
  keys1 ≡ₚ keys2 → sort_Strings keys1 = sort_Strings keys2.
Proof.
  intros Hp. apply (Sorted_unique String.le); try apply sort_Strings_sorted.
  by rewrite !sort_Strings_perm.
Qed.

Section ConstructionProps.
Variable Detect : Resource.

(** The accumulated fields of a new core, for the keys in the order in
    which they come out of the sort. *)
Definition newCore_fields (m : option (gmap string Value)) (keys : list string) : list Field :=
  zap.String (res_Type Detect) (res_LogID Detect)
  :: zap.Inline (IResource Detect)
  :: map (fun k => zap.Any k (map_index m k)) keys.

Lemma newCore_run (range_keys : option (gmap string Value) → list string)
    (ws0 : loc) (enab : option LevelEnabler) (opts : list Option) (w : World jsonEncoder) :
  newCore Detect range_keys ws0 enab opts w =
    Ok ({| LevelEnabler_ := enab;
           enc := fresh (dom (encs w));
           ws := ws_of ws0 opts;
           fields :=
             if bool_decide (0 < map_len (initFields_of opts))%nat
             then newCore_fields (initFields_of opts)
                    (sort_Strings (range_keys (initFields_of opts)))
             else newCore_fields (initFields_of opts) [];
           initFields := initFields_of opts |},
        {| encs := <[fresh (dom (encs w)) := jsonenc.NewJSONEncoder]> (encs w);
           sinks := sinks w |}).
Proof.
  unfold newCore, bind, alloc_enc, ret. rewrite apply_options. cbn.
  fold (initFields_of opts). by case_bool_decide.
Qed.
End ConstructionProps.

(** The initial fields of the example: [{"b": 1, "a": 2}]. *)
Definition fields_b_a : gmap string Value := <["b" := VInt 1]> (<["a" := VInt 2]> ∅).

(** C5: the accumulated fields of a new core are the resource-type field,
    the inlined resource, then one field per initial key, the keys in
    increasing order; every order in which the map's keys may be visited
    gives the same core.  For the initial fields [{"b": 1, "a": 2}] the
    field [a] comes before the field [b]. *)
Theorem newCore_fields_order (Detect : Resource)
    (range_keys : option (gmap string Value) → list string)
    (ws0 : loc) (enab : option LevelEnabler) (opts : list Option) (w : World jsonEncoder) :
  range_keys (initFields_of opts) ≡ₚ map_keys (initFields_of opts) →
  ∃ c w' keys,
    newCore Detect range_keys ws0 enab opts w = Ok (c, w')
    ∧ fields c =
        zap.String (res_Type Detect) (res_LogID Detect)
        :: zap.Inline (IResource Detect)
        :: map (fun k => zap.Any k (map_index (initFields_of opts) k)) keys
    ∧ keys ≡ₚ map_keys (initFields_of opts)
    ∧ Sorted String.le keys
    ∧ (∀ range_keys',
         range_keys' (initFields_of opts) ≡ₚ map_keys (initFields_of opts) →
         newCore Detect range_keys' ws0 enab opts w = Ok (c, w'))
    ∧ (initFields_of opts = Some fields_b_a →
       fields c =
         [zap.String (res_Type Detect) (res_LogID Detect);
          zap.Inline (IResource Detect);
          zap.Int "a" 2;
          zap.Int "b" 1]).
Proof.
  intros Hperm.
  exists {| LevelEnabler_ := enab;
            enc := fresh (dom (encs w));
            ws := ws_of ws0 opts;
            fields := newCore_fields Detect (initFields_of opts)
                        (sort_Strings (map_keys (initFields_of opts)));
            initFields := initFields_of opts |}.
  eexists. exists (sort_Strings (map_keys (initFields_of opts))).
  assert (∀ rk, rk (initFields_of opts) ≡ₚ map_keys (initFields_of opts) →
            newCore Detect rk ws0 enab opts w =
              Ok ({| LevelEnabler_ := enab;
                     enc := fresh (dom (encs w));
                     ws := ws_of ws0 opts;
                     fields := newCore_fields Detect (initFields_of opts)
                                 (sort_Strings (map_keys (initFields_of opts)));
                     initFields := initFields_of opts |},
                  {| encs := <[fresh (dom (encs w)) := jsonenc.NewJSONEncoder]> (encs w);
                     sinks := sinks w |})) as Hrun.
  { intros rk Hrk. rewrite newCore_run. do 3 f_equal.
    case_bool_decide as Hlen.
    - by rewrite (sort_Strings_order_irrelevant _ _ Hrk).
    - by rewrite (map_len_zero_keys _ Hlen). }
  split; [by apply Hrun|].
  split; [reflexivity|].
  split; [apply sort_Strings_perm|].
  split; [apply sort_Strings_sorted|].
  split; [exact Hrun|].
  intros Hm. cbn [fields]. rewrite Hm. reflexivity.
Qed.

Definition visit_sorted (m : option (gmap string Value)) : list string := map_keys m.
Definition visit_reversed (m : option (gmap string Value)) : list string :=
  reverse (map_keys m).

Lemma newCore_fields_order_witness :
  visit_reversed (initFields_of [WithInitialFields (Some fields_b_a)])
    ≡ₚ map_keys (initFields_of [WithInitialFields (Some fields_b_a)])
  ∧ visit_reversed (Some fields_b_a) = ["b"; "a"]
  ∧ ∃ c w',
      newCore example_resource visit_reversed 7%positive None
        [WithInitialFields (Some fields_b_a)] (json_world None) = Ok (c, w')
      ∧ newCore example_resource visit_sorted 7%positive None
          [WithInitialFields (Some fields_b_a)] (json_world None) = Ok (c, w')
      ∧ fields c =
          [zap.String "gce_instance" "app";
           zap.Inline (IResource example_resource);
           zap.Int "a" 2;
           zap.Int "b" 1].
Proof.
  assert (visit_reversed (initFields_of [WithInitialFields (Some fields_b_a)])
            ≡ₚ map_keys (initFields_of [WithInitialFields (Some fields_b_a)])) as Hperm.
  { unfold visit_reversed. apply reverse_Permutation. }
  split; [exact Hperm|]. split; [reflexivity|].
  destruct (newCore_fields_order example_resource visit_reversed 7%positive None
              [WithInitialFields (Some fields_b_a)] (json_world None) Hperm)
    as (c & w' & keys & Hrun & _ & _ & _ & Hany & Hba).
  exists c, w'. split; [exact Hrun|]. split.
  - apply Hany. reflexivity.
  - apply Hba. reflexivity.
Defined.

(** ** The core [NewCore] returns *)

Section StockCore.
Context {E : Type} `{Encoder E}.

Lemma ioCore_Write_run (c : ioCore) (ent : Entry) (fs : list Field) (w : World E)
    (e0 e2 : E) (out : string + error) (s : WriteSyncer) :
  encs w !! io_enc c = Some e0 →
  EncodeEntry e0 ent fs = Ok (e2, out) →
  sinks w !! io_out c = Some s →
  ∃ w',
    ioCore_Write c ent fs w =
      Ok (match out with
          | inr err => Some err
          | inl bytes => snd (on_Write s (history s) bytes)
          end, w')
    ∧ encs w' = <[io_enc c := e2]> (encs w)
    ∧ match out with
      | inr _ => sinks w' = sinks w
      | inl bytes =>
          history_at w' (io_out c) =
            Some (history s ++ EvWrite bytes ::
                    match snd (on_Write s (history s) bytes) with
                    | None => if bool_decide (ErrorLevel < Level_ ent) then [EvSync] else []
                    | Some _ => []
                    end)
      end.
Proof.
  intros He0 He2 Hs. unfold ioCore_Write, bind, load_enc, lift, store_enc, ws_Write, ws_Sync.
  rewrite He0, He2. cbn. destruct out as [bytes|err]; cbn; [|by eexists].
  rewrite Hs. unfold history_at.
  destruct (on_Write s (history s) bytes) as [n [werr|]]; cbn.
  - eexists. split; [done|]. cbn. by rewrite lookup_insert_eq.
  - case_bool_decide; cbn.
    + rewrite lookup_insert_eq. eexists. split; [done|]. cbn.
      rewrite lookup_insert_eq. cbn. by rewrite <- app_assoc.
    + eexists. split; [done|]. cbn. by rewrite lookup_insert_eq.
Qed.
End StockCore.

Lemma ws_of_app (ws0 : loc) (opts1 opts2 : list Option) :
  ws_of ws0 (opts1 ++ opts2) = ws_of (ws_of ws0 opts1) opts2.
Proof. unfold ws_of. by rewrite fold_left_app. Qed.

(** C9: [NewCore] returns the stock core built from the encoder, the sink
    and the level enabler of the core [newCore] made.  The encoder is the
    new JSON encoder, into which nothing has been merged.  The resource
    descriptor and the initial fields do not reach the result: any other
    descriptor and initial-field map give the same core and store.  A
    write through the returned core hands the sink the entry encoded with
    the empty context. *)
Theorem NewCore_returns_stock_core (Detect : Resource)
    (range_keys : option (gmap string Value) → list string)
    (ws0 : loc) (enab : option LevelEnabler) (opts : list Option) (w : World jsonEncoder) :
  ∃ core w',
    newCore Detect range_keys ws0 enab opts w = Ok (core, w')
    ∧ NewCore Detect range_keys ws0 enab opts w =
        Ok (zapcore_NewCore (enc core) (ws core) (LevelEnabler_ core), w')
    ∧ LevelEnabler_ core = enab
    ∧ ws core = ws_of ws0 opts
    ∧ encs w' !! enc core = Some jsonenc.NewJSONEncoder
    ∧ (∀ Detect' range_keys' m,
         NewCore Detect' range_keys' ws0 enab (opts ++ [WithInitialFields m]) w =
           NewCore Detect range_keys ws0 enab opts w)
    ∧ (∀ ent fs e2 out s,
         EncodeEntry jsonenc.NewJSONEncoder ent fs = Ok (e2, out) →
         sinks w' !! ws core = Some s →
         ∃ bytes w'',
           out = inl bytes
           ∧ ioCore_Write (zapcore_NewCore (enc core) (ws core) (LevelEnabler_ core))
               ent fs w' = Ok (snd (on_Write s (history s) bytes), w'')
           ∧ history_at w'' (ws core) =
               Some (history s ++ EvWrite bytes ::
                       match snd (on_Write s (history s) bytes) with
                       | None => if bool_decide (ErrorLevel < Level_ ent) then [EvSync] else []
                       | Some _ => []
                       end)).
Proof.
  eexists. eexists.
  split; [apply newCore_run|].
  split; [unfold NewCore, bind; by rewrite newCore_run|].
  cbn [LevelEnabler_ ws enc encs].
  do 2 (split; [reflexivity|]).
  split; [apply lookup_insert_eq|].
  split.
  - intros Detect' rk' m. unfold NewCore, bind. rewrite !newCore_run. cbn.
    rewrite ws_of_app. reflexivity.
  - intros ent fs e2 out s He2 Hs.
    assert (∃ bytes, out = inl bytes) as [bytes ->].
    { cbn in He2. unfold jsonenc.EncodeEntry in He2.
      match type of He2 with
      | res_bind ?r _ = _ => destruct r; cbn in He2; [|done]
      end.
      injection He2 as _ <-. by eexists. }
    edestruct (ioCore_Write_run
                 (zapcore_NewCore (fresh (dom (encs w))) (ws_of ws0 opts) enab)
                 ent fs
                 {| encs := <[fresh (dom (encs w)) := jsonenc.NewJSONEncoder]> (encs w);
                    sinks := sinks w |})
      as (w'' & Hrun & _ & Hhist);
      [apply lookup_insert_eq|exact He2|exact Hs|].
    exists bytes, w''. split; [reflexivity|]. split; [exact Hrun|exact Hhist].
Qed.

(** [WrapCore] builds its result the same way, from the wrapped core as
    the level enabler. *)
Lemma WrapCore_as_NewCore (Detect : Resource)
    (range_keys : option (gmap string Value) → list string)
    (opts : list Option) (nop : loc) (c : option LevelEnabler) :
  WrapCore Detect range_keys opts nop c = NewCore Detect range_keys nop c opts.
Proof. reflexivity. Qed.

Lemma NewCore_returns_stock_core_witness :
  ∃ core w' out bytes w'',
    newCore example_resource visit_sorted 7%positive (Some (Level_Enabled InfoLevel))
      [WithInitialFields (Some fields_b_a)] (json_world None) = Ok (core, w')
    ∧ length (fields core) = 4%nat
    ∧ EncodeEntry jsonenc.NewJSONEncoder (example_entry InfoLevel) []
        = Ok (jsonenc.NewJSONEncoder, out)
    ∧ out = inl bytes
    ∧ sinks w' !! ws core = Some (sink_with None)
    ∧ ioCore_Write (zapcore_NewCore (enc core) (ws core) (LevelEnabler_ core))
        (example_entry InfoLevel) [] w' = Ok (None, w'')
    ∧ history_at w'' (ws core) = Some [EvWrite bytes].
Proof.
  destruct (NewCore_returns_stock_core example_resource visit_sorted 7%positive
              (Some (Level_Enabled InfoLevel)) [WithInitialFields (Some fields_b_a)]
              (json_world None))
    as (core & w' & Hnew & _ & _ & Hws & _ & _ & Hwrite).
  pose proof Hnew as Hnew'. rewrite newCore_run in Hnew'. injection Hnew' as Hcore Hw'.
  assert (sinks w' !! ws core = Some (sink_with None)) as Hs.
  { rewrite <- Hw', Hws. reflexivity. }
  edestruct (Hwrite (example_entry InfoLevel) []) as (bytes & w'' & Hout & Hrun & Hhist);
    [reflexivity|exact Hs|].
  exists core, w'. eexists. exists bytes, w''.
  split; [exact Hnew|]. split; [by rewrite <- Hcore|].
  split; [reflexivity|]. split; [exact Hout|]. split; [exact Hs|]. split; [exact Hrun|].
  exact Hhist.
Defined.

(** ** The JSON encoder only appends *)

Lemma string_app_cons (c : ascii) (s1 s2 : string) :
  String.String c s1 +:+ s2 = String.String c (s1 +:+ s2).
Proof. reflexivity. Qed.

Lemma string_app_assoc (s1 s2 s3 : string) : (s1 +:+ s2) +:+ s3 = s1 +:+ (s2 +:+ s3).
Proof.
  induction s1 as [|c s1 IH]; [reflexivity|].
  rewrite !string_app_cons. by f_equal.
Qed.

Lemma string_app_nil_r (s : string) : s +:+ "" = s.
Proof.
  induction s as [|c s IH]; [reflexivity|].
  rewrite string_app_cons. by f_equal.
Qed.

(** [extends a b]: the buffer of [b] is the buffer of [a] followed by more
    bytes. *)
Definition extends (a b : jsonEncoder) : Prop := ∃ d, buf b = buf a +:+ d.

Global Instance extends_refl : Reflexive extends.
Proof. intros a. exists "". by rewrite string_app_nil_r. Qed.

Global Instance extends_trans : Transitive extends.
Proof.
  intros a b c [d1 H1] [d2 H2]. exists (d1 +:+ d2).
  by rewrite H2, H1, string_app_assoc.
Qed.

Lemma append_extends (s : string) (enc : jsonEncoder) : extends enc (json.append s enc).
Proof. by exists s. Qed.

Lemma addElementSeparator_extends (enc : jsonEncoder) :
  extends enc (json.addElementSeparator enc).
Proof.
  unfold json.addElementSeparator.
  destruct (json.last_byte (buf enc)); [|reflexivity].
  case_bool_decide; [reflexivity|]. cbn.
  destruct (spaced enc); [|apply append_extends].
  etrans; apply append_extends.
Qed.

Ltac extends_chain :=
  repeat first
    [ reflexivity
    | assumption
    | (etrans; [|apply append_extends])
    | apply addElementSeparator_extends ].

Lemma addKey_extends (key : string) (enc : jsonEncoder) : extends enc (json.addKey key enc).
Proof.
  unfold json.addKey, json.safeAddString. cbn.
  destruct (spaced _); extends_chain.
Qed.

Lemma AppendString_extends (val : string) (enc : jsonEncoder) :
  extends enc (json.AppendString val enc).
Proof. unfold json.AppendString, json.safeAddString. extends_chain. Qed.

Lemma AppendInt64_extends (val : Z) (enc : jsonEncoder) :
  extends enc (json.AppendInt64 val enc).
Proof. unfold json.AppendInt64. extends_chain. Qed.

Lemma AppendBool_extends (val : bool) (enc : jsonEncoder) :
  extends enc (json.AppendBool val enc).
Proof. unfold json.AppendBool. extends_chain. Qed.

Lemma closeOpenNamespaces_extends (enc : jsonEncoder) :
  extends enc (json.closeOpenNamespaces enc).
Proof. by eexists. Qed.

Lemma AddString_extends (key val : string) (enc : jsonEncoder) :
  extends enc (AddString key val enc).
Proof. cbn. etrans; [apply addKey_extends|apply AppendString_extends]. Qed.

Lemma AddInt64_extends (key : string) (val : Z) (enc : jsonEncoder) :
  extends enc (AddInt64 key val enc).
Proof. cbn. etrans; [apply addKey_extends|apply AppendInt64_extends]. Qed.

Lemma AddBool_extends (key : string) (val : bool) (enc : jsonEncoder) :
  extends enc (AddBool key val enc).
Proof. cbn. etrans; [apply addKey_extends|apply AppendBool_extends]. Qed.

Lemma AddReflected_extends (key : string) (val : Value) (enc : jsonEncoder) :
  extends enc (fst (AddReflected key val enc)).
Proof.
  cbn. destruct val as [| | | |[bytes|err]]; cbn;
    first [reflexivity | (etrans; [apply addKey_extends|apply append_extends])].
Qed.

Lemma AppendObject_extends obj (enc enc' : jsonEncoder) (err : option error) :
  (∀ e e' err', obj e = Ok (e', err') → extends e e') →
  json.AppendObject obj enc = Ok (enc', err) →
  extends enc enc'.
Proof.
  intros Hobj. unfold json.AppendObject.
  match goal with |- res_bind (obj ?e) _ = _ → _ => destruct (obj e) as [[e1 err1]|] eqn:He end;
    cbn; [|done].
  intros [= <- <-]. apply Hobj in He.
  destruct He as [d Hd]. cbn. rewrite Hd.
  destruct (addElementSeparator_extends
              {| buf := buf enc; spaced := spaced enc; openNamespaces := 0 |}) as [d0 Hd0].
  cbn in *. rewrite Hd0. eexists. by rewrite !string_app_assoc.
Qed.

Lemma Iface_MarshalLogObject_extends (i : Iface) (enc enc' : jsonEncoder)
    (err : option error) :
  Iface_MarshalLogObject i enc = Ok (enc', err) → extends enc enc'.
Proof.
  destruct i as [|[l|]|r|v]; cbn; try done.
  - intros [= <- <-].
    etrans; [|apply AppendString_extends]. etrans; [|apply addKey_extends].
    etrans; [|apply AppendInt64_extends]. etrans; [|apply addKey_extends].
    etrans; [|apply AppendString_extends]. apply addKey_extends.
  - unfold Resource_MarshalLogObject. intros [= <- <-].
    generalize (res_Labels r). intros labels. revert enc.
    induction labels as [|kv labels IH]; intros enc; cbn [fold_left]; [reflexivity|].
    etrans; [|apply IH]. apply AddString_extends.
Qed.

Lemma AddTo_extends (f : Field) (enc enc' : jsonEncoder) :
  AddTo f enc = Ok enc' → extends enc enc'.
Proof.
  unfold AddTo.
  match goal with
  | |- res_bind ?r _ = _ → _ => destruct r as [[e1 err1]|] eqn:Hr; cbn; [|done]
  end.
  intros Hk.
  assert (extends enc e1) as He1.
  { destruct (Type_ f); try done.
    - injection Hr as <- <-. apply AddBool_extends.
    - injection Hr as <- <-. apply AddInt64_extends.
    - destruct (Interface f) as [|l|r|v] eqn:Hi; try done.
      + etrans; [apply addKey_extends|].
        eapply AppendObject_extends; [|exact Hr].
        intros ? ? ?. apply Iface_MarshalLogObject_extends.
      + etrans; [apply addKey_extends|].
        eapply AppendObject_extends; [|exact Hr].
        intros ? ? ?. apply Iface_MarshalLogObject_extends.
    - by eapply Iface_MarshalLogObject_extends.
    - injection Hr as Hr. apply (f_equal fst) in Hr. cbn [fst] in Hr.
      rewrite <- Hr. apply AddReflected_extends.
    - injection Hr as <- <-. apply AddString_extends.
    - injection Hr as <- <-. reflexivity. }
  destruct err1 as [err|]; injection Hk as <-; [|done].
  etrans; [exact He1|apply AddString_extends].
Qed.

Lemma addFields_extends (fs : list Field) (enc enc' : jsonEncoder) :
  addFields enc fs = Ok enc' → extends enc enc'.
Proof.
  revert enc. induction fs as [|f fs IH]; intros enc; cbn [addFields].
  - by intros [= <-].
  - destruct (AddTo f enc) as [e1|] eqn:Hf; cbn; [|done].
    intros Hfs. etrans; [by eapply AddTo_extends|by apply IH].
Qed.

Lemma json_EncodeEntry_inl (enc enc' : jsonEncoder) (ent : Entry) (fs : list Field)
    (out : string + error) :
  EncodeEntry enc ent fs = Ok (enc', out) → enc' = enc ∧ ∃ bytes, out = inl bytes.
Proof.
  cbn. unfold jsonenc.EncodeEntry.
  match goal with
  | |- res_bind ?r _ = _ → _ => destruct r; cbn; [|done]
  end.
  intros [= <- <-]. split; [done|by eexists].
Qed.

(** The bytes of an encoded entry contain the accumulated context of the
    encoder. *)
Lemma json_EncodeEntry_contains_context (enc enc' : jsonEncoder) (ent : Entry)
    (fs : list Field) (bytes : string) :
  EncodeEntry enc ent fs = Ok (enc', inl bytes) →
  ∃ pre post, bytes = pre +:+ buf enc +:+ post.
Proof.
  cbn. unfold jsonenc.EncodeEntry.
  set (final0 := jsonenc.encode_message _ _ _).
  assert (∃ pre, buf (jsonenc.encode_context enc final0) = pre +:+ buf enc) as [pre Hpre].
  { unfold jsonenc.encode_context, jsonenc.nonempty.
    case_bool_decide as Hb; cbn.
    - exists (buf final0). by rewrite Hb, string_app_nil_r.
    - by eexists. }
  destruct (addFields (jsonenc.encode_context enc final0) fs) as [final1|] eqn:Hfs;
    cbn; [|done].
  intros [= _ <-].
  apply addFields_extends in Hfs as [d1 Hd1].
  assert (extends final1
            (jsonenc.encode_stack NewEncoderConfig ent (json.closeOpenNamespaces final1)))
    as [d2 Hd2].
  { etrans; [apply closeOpenNamespaces_extends|].
    unfold jsonenc.encode_stack. destruct (_ && _); [apply AddString_extends|reflexivity]. }
  rewrite Hd2, Hd1, Hpre. exists pre. eexists.
  rewrite !string_app_assoc. reflexivity.
Qed.

(** With JSON encoders, every entry written through the derived core
    carries the context of the derived encoder, which is the context of
    [c] at the time of [With] followed by the encoding of the new fields. *)
Lemma With_json_write_includes_fields (c d : Core) (fs fs2 : list Field)
    (w w' w2 : World jsonEncoder) (e e' : jsonEncoder) (ent : Entry)
    (r : option error) (s : WriteSyncer) :
  encs w !! enc c = Some e →
  addFields (Clone e) fs = Ok e' →
  sinks w !! ws c = Some s →
  With c fs w = Ok (d, w') →
  Write d ent fs2 w' = Ok (r, w2) →
  (∃ added, buf e' = buf e +:+ added)
  ∧ ∃ pre post rest,
      history_at w2 (ws c) = Some (history s ++ EvWrite (pre +:+ buf e' +:+ post) :: rest).
Proof.
  intros He He' Hs Hwith Hrun.
  rewrite (With_run c fs w e e' He He') in Hwith. injection Hwith as <- <-.
  split; [by apply addFields_extends in He'|].
  destruct (Write_inv _ _ _ _ _ _ Hrun) as (e0 & e1 & e2 & out & He0 & He1 & He2 & _).
  cbn in He0, He1. rewrite lookup_insert_eq in He0. injection He0 as <-.
  destruct (json_EncodeEntry_inl _ _ _ _ _ He2) as [-> [bytes ->]].
  erewrite Write_encoded in Hrun by (first [eassumption | apply lookup_insert_eq]).
  injection Hrun as _ <-.
  destruct (json_EncodeEntry_contains_context _ _ _ _ _ He2) as (pre & post & ->).
  apply addFields_extends in He1 as [d1 Hd1]. rewrite Hd1.
  exists pre, (d1 +:+ post). unfold history_at. cbn. rewrite lookup_insert_eq. cbn.
  rewrite !string_app_assoc.
  destruct (on_Write _ _ _) as [n [werr|]]; cbn; [by eexists|].
  case_bool_decide; cbn; [|by eexists].
  rewrite <- app_assoc. by eexists.
Qed.

(** ** The source-location field *)

Section SourceProps.
Variable FuncForPC : Z → option string.
Variable gopath_src : string.

(** C7, first part, on the code: with [ok = false], [SourceLocation] returns
    an object field under the source-location key whose marshaler is the
    nil pointer.  It is not the field that encoders skip: the JSON encoder
    writes its key and then panics in the marshaler, both when the field
    is added to a context and when it is encoded with an entry. *)
Theorem SourceLocation_not_ok_panics (pc : Z) (file : string) (line : Z) :
  SourceLocation FuncForPC gopath_src pc file line false
    = zap.Object SourceLocationKey (ISourceLocation None)
  ∧ Type_ (SourceLocation FuncForPC gopath_src pc file line false) = ObjectMarshalerType
  ∧ SourceLocation FuncForPC gopath_src pc file line false ≠ zap.Skip
  ∧ (∀ enc : jsonEncoder,
       AddTo (SourceLocation FuncForPC gopath_src pc file line false) enc = Panic nil_deref)
  ∧ (∀ (enc : jsonEncoder) ent fs,
       EncodeEntry enc ent (SourceLocation FuncForPC gopath_src pc file line false :: fs)
         = Panic nil_deref).
Proof.
  split; [reflexivity|]. split; [reflexivity|]. split; [discriminate|].
  split; [reflexivity|]. reflexivity.
Qed.

(** C7, second part: with [ok = true] and a program counter the resolver
    does not know, the field holds the file and the line and an empty
    function name, and an encoder receives the three of them. *)
Lemma SourceLocation_unresolved (pc : Z) (file : string) (line : Z) :
  FuncForPC pc = None →
  SourceLocation FuncForPC gopath_src pc file line true
    = zap.Object SourceLocationKey
        (ISourceLocation
           (Some {| sl_embedded := Some {| File := file; Line := line; Function := "" |} |}))
  ∧ ∀ (E : Type) (OE : ObjectEncoder E) (enc : E),
      MarshalLogObject (newSource FuncForPC gopath_src pc file line true) enc
        = Ok (AddString "function" "" (AddInt64 "line" line (AddString "file" file enc)), None).
Proof.
  intros Hpc. unfold SourceLocation, newSource. rewrite Hpc. by split.
Qed.
End SourceProps.

(** With [ok = true] the JSON encoder writes an object with the three
    keys, the function name empty. *)
Lemma SourceLocation_unresolved_json :
  ∃ enc,
    AddTo (SourceLocation (fun _ => None) "/go/src" 4198400 "main.go" 42 true)
      jsonenc.NewJSONEncoder = Ok enc
    ∧ buf enc =
        json.quote +:+ SourceLocationKey +:+ json.quote +:+ ":{"
        +:+ json.quote +:+ "file" +:+ json.quote +:+ ":"
        +:+ json.quote +:+ "main.go" +:+ json.quote +:+ ","
        +:+ json.quote +:+ "line" +:+ json.quote +:+ ":42,"
        +:+ json.quote +:+ "function" +:+ json.quote +:+ ":"
        +:+ json.quote +:+ json.quote +:+ "}".
Proof. eexists. split; reflexivity. Qed.

(** ** A run from construction to the sink *)

(** A core made by [newCore] with the initial fields [{"b": 1, "a": 2}]
    writes the resource fields, then [a], then [b], whichever way the keys
    of the map were visited. *)
Lemma newCore_write_emits_sorted_fields :
  ∀ visit, visit ∈ [visit_sorted; visit_reversed] →
  ∃ c w' w2,
    newCore example_resource visit 7%positive None
      [WithInitialFields (Some fields_b_a)] (json_world None) = Ok (c, w')
    ∧ Write c (example_entry InfoLevel) [] w' = Ok (None, w2)
    ∧ history_at w2 (ws c) =
        Some [EvWrite
                ("{" +:+ quoted "severity" +:+ ":" +:+ quoted "INFO"
                 +:+ "," +:+ quoted "time" +:+ ":" +:+ quoted "2022-04-01T00:00:00Z"
                 +:+ "," +:+ quoted "message" +:+ ":" +:+ quoted "hello"
                 +:+ "," +:+ quoted "gce_instance" +:+ ":" +:+ quoted "app"
                 +:+ "," +:+ quoted "zone" +:+ ":" +:+ quoted "us-central1-a"
                 +:+ "," +:+ quoted "a" +:+ ":2"
                 +:+ "," +:+ quoted "b" +:+ ":1"
                 +:+ "}" +:+ DefaultLineEnding)].
Proof.
  intros visit Hin.
  assert (visit (Some fields_b_a) ≡ₚ ["a"; "b"]) as Hperm.
  { apply elem_of_cons in Hin as [->|Hin]; [reflexivity|].
    apply list_elem_of_singleton in Hin as ->. apply reverse_Permutation. }
  eexists. eexists. eexists. split; [apply newCore_run|].
  cbn [initFields_of fold_left map_len].
  rewrite (sort_Strings_order_irrelevant _ _ Hperm).
  split.
  - erewrite Write_encoded by (first [apply lookup_insert_eq | reflexivity]).
    reflexivity.
  - unfold history_at. cbn -[String.append]. rewrite lookup_insert_eq. reflexivity.
Qed.

(** * Further properties of the package *)

(** ** Classification of flush errors *)

Lemma errors_Is_wrap (prefix : string) (err : error) (code : Z) :
  errors.Is (WrapError prefix err) (Errno code) = errors.Is err (Errno code).
Proof. cbn [errors.Is]. by rewrite bool_decide_eq_false_2. Qed.

Lemma errors_Is_errno (code target : Z) :
  errors.Is (Errno code) (Errno target) = bool_decide (code = target).
Proof.
  cbn [errors.Is]. rewrite orb_false_r.
  apply bool_decide_ext. split; congruence.
Qed.

(** X1: [knownSyncError] looks through wrappers: wrapping an error changes
    nothing in its classification.  An error number is known exactly when
    it is one of the four, and an error made of text alone never is. *)
Theorem knownSyncError_classification :
  (∀ prefix err, knownSyncError (WrapError prefix err) = knownSyncError err)
  ∧ (∀ text, knownSyncError (ErrorString text) = false)
  ∧ (∀ code, knownSyncError (Errno code) = true ↔ code ∈ [22; 95; 25; 9]).
Proof.
  split; [|split].
  - intros prefix err. unfold knownSyncError, unix.EINVAL, unix.ENOTSUP, unix.ENOTTY,
      unix.EBADF. by rewrite !errors_Is_wrap.
  - reflexivity.
  - intros code. unfold knownSyncError, unix.EINVAL, unix.ENOTSUP, unix.ENOTTY, unix.EBADF.
    rewrite !errors_Is_errno.
    rewrite !elem_of_cons, elem_of_nil.
    repeat case_bool_decide; cbn; split; intros Hx; try done; tauto.
Qed.

(** ** [addFields] *)

Section AddFieldsProps.
Context {E : Type} `{ObjectEncoder E}.

Lemma addFields_app_bind (enc : E) (fs1 fs2 : list Field) :
  addFields enc (fs1 ++ fs2) = res_bind (addFields enc fs1) (fun enc => addFields enc fs2).
Proof.
  revert enc. induction fs1 as [|f fs1 IH]; intros enc; [reflexivity|].
  cbn [app addFields]. destruct (AddTo f enc) as [enc1|msg]; cbn; [apply IH|reflexivity].
Qed.

(** X2: adding a list of fields made of two parts is adding the first
    part, then the second, to the encoder the first part left; a panic in
    the first part is the panic of the whole, and the second part is not
    added. *)
Theorem addFields_app (enc : E) (fs1 fs2 : list Field) :
  addFields enc (fs1 ++ fs2) = res_bind (addFields enc fs1) (fun enc => addFields enc fs2)
  ∧ (∀ enc1, addFields enc fs1 = Ok enc1 →
       addFields enc (fs1 ++ fs2) = addFields enc1 fs2)
  ∧ (∀ msg, addFields enc fs1 = Panic msg → addFields enc (fs1 ++ fs2) = Panic msg).
Proof.
  split; [apply addFields_app_bind|].
  split; intros x Hx; by rewrite addFields_app_bind, Hx.
Qed.
End AddFieldsProps.

(** ** [With] and [Check] *)

Section MoreCoreProps.
Context {E : Type} `{Encoder E}.

(** X3: [With] with no fields is [clone]: the same derived core and the
    same store, or the same panic when [c] has no encoder. *)
Theorem With_no_fields_is_clone (c : Core) (w : World E) :
  With c [] w = clone c w.
Proof.
  unfold With, bind.
  destruct (encs w !! enc c) as [e|] eqn:He.
  - rewrite (clone_run c w e He). unfold load_enc, lift, store_enc, ret. cbn.
    rewrite lookup_insert_eq. cbn. by rewrite insert_insert_eq.
  - unfold clone, bind, load_enc. by rewrite He.
Qed.

(** X4: for a level the filter accepts, [Check] adds the core at the end of
    the cores of the checked entry, once, and keeps the entry already
    there; from the nil checked entry it makes one for [ent].  The store is
    not changed. *)
Theorem Check_enabled_registers_core (c : Core) (ent : Entry) (ce : option CheckedEntry)
    (w : World E) (enab : LevelEnabler) :
  LevelEnabler_ c = Some enab →
  enab (Level_ ent) = true →
  ∃ ce',
    Check c ent ce w = Ok (Some ce', w)
    ∧ cores ce' = match ce with Some old => cores old | None => [] end ++ [c]
    ∧ ce_Entry ce' = match ce with Some old => ce_Entry old | None => ent end.
Proof.
  intros Hc Hen. unfold Check, Enabled, bind, ret. rewrite Hc, Hen.
  destruct ce as [old|]; cbn; by eexists.
Qed.
End MoreCoreProps.

Lemma Check_enabled_registers_core_witness :
  LevelEnabler_ (example_core (Some (Level_Enabled InfoLevel))) = Some (Level_Enabled InfoLevel)
  ∧ Level_Enabled InfoLevel (Level_ (example_entry WarnLevel)) = true
  ∧ ∃ ce',
      Check (example_core (Some (Level_Enabled InfoLevel))) (example_entry WarnLevel) None
        (json_world None) = Ok (Some ce', json_world None)
      ∧ cores ce' = [example_core (Some (Level_Enabled InfoLevel))]
      ∧ ce_Entry ce' = example_entry WarnLevel.
Proof.
  split; [reflexivity|]. split; [reflexivity|].
  apply (@Check_enabled_registers_core jsonEncoder
           (example_core (Some (Level_Enabled InfoLevel))) (example_entry WarnLevel) None
           (json_world None) (Level_Enabled InfoLevel) eq_refl eq_refl).
Defined.

(** ** Levels outside the table, and the order of severities *)

(** X5: for a level that is not one of the seven, the table has no entry
    and the level encoder writes the name of the zero severity. *)
Theorem levelEncoder_unmapped_level (E : Type) (OE : ObjectEncoder E) (lvl : Level) (enc : E) :
  lvl ∉ defined_levels →
  levelToSeverity !! lvl = None
  ∧ levelEncoder lvl enc = AppendString "DEFAULT" enc.
Proof.
  intros Hout.
  assert (levelToSeverity !! lvl = None) as Hnone.
  { destruct (levelToSeverity !! lvl) as [s|] eqn:Hs; [|done].
    destruct Hout. by eapply levelToSeverity_lookup_Some. }
  split; [done|]. unfold levelEncoder, severity_at. by rewrite Hnone.
Qed.

Lemma levelEncoder_unmapped_level_witness :
  (6 ∉ defined_levels)
  ∧ levelToSeverity !! 6 = None
  ∧ levelEncoder 6 jsonenc.NewJSONEncoder = AppendString "DEFAULT" jsonenc.NewJSONEncoder.
Proof.
  assert (6 ∉ defined_levels) as Hout.
  { intros Hin. apply defined_levels_cases in Hin.
    destruct Hin as [Hx|[Hx|[Hx|[Hx|[Hx|[Hx|Hx]]]]]]; discriminate Hx. }
  split; [exact Hout|].
  apply (levelEncoder_unmapped_level jsonEncoder _ 6 jsonenc.NewJSONEncoder Hout).
Defined.

(** X6: on the seven levels the table keeps the order: a higher level has
    a higher severity number.  The levels above [ErrorLevel], for which
    [Write] flushes, are those whose severity is above [ERROR]. *)
Theorem severity_monotone (l1 l2 : Level) :
  l1 ∈ defined_levels →
  l2 ∈ defined_levels →
  (l1 < l2 ↔ logtypepb.Number (severity_at l1) < logtypepb.Number (severity_at l2))
  ∧ (ErrorLevel < l1 ↔
       logtypepb.Number LogSeverity_ERROR < logtypepb.Number (severity_at l1)).
Proof.
  intros H1 H2. apply defined_levels_cases in H1, H2.
  destruct H1 as [->|[->|[->|[->|[->|[->| ->]]]]]];
    destruct H2 as [->|[->|[->|[->|[->|[->| ->]]]]]];
    vm_compute; split; split; intros Hx; first [reflexivity | discriminate Hx].
Qed.

Lemma severity_monotone_witness :
  WarnLevel ∈ defined_levels
  ∧ PanicLevel ∈ defined_levels
  ∧ (WarnLevel < PanicLevel ↔
       logtypepb.Number (severity_at WarnLevel) < logtypepb.Number (severity_at PanicLevel)).
Proof.
  assert (WarnLevel ∈ defined_levels) as H1 by (do 2 constructor 2; constructor 1).
  assert (PanicLevel ∈ defined_levels) as H2 by (do 5 constructor 2; constructor 1).
  split; [exact H1|]. split; [exact H2|].
  exact (proj1 (severity_monotone WarnLevel PanicLevel H1 H2)).
Defined.

(** ** [Write] and the sink *)

Ltac swap_inserts :=
  first [ done | by apply insert_insert_ne | by (apply insert_insert_ne; congruence) ].

Section WriteSinkProps.
Context {E : Type} `{Encoder E}.

(** X7: when the sink refuses the bytes, [Write] returns the sink's error
    wrapped and does not flush, at any level, fatal ones included; the
    sink was handed the bytes once. *)
Theorem Write_write_error (c : Core) (ent : Entry) (fs : list Field) (w : World E)
    (e0 e1 e2 : E) (bytes : string) (s : WriteSyncer) (werr : error) :
  encs w !! enc c = Some e0 →
  addFields e0 (fields c) = Ok e1 →
  EncodeEntry e1 ent fs = Ok (e2, inl bytes) →
  sinks w !! ws c = Some s →
  snd (on_Write s (history s) bytes) = Some werr →
  ∃ w',
    Write c ent fs w = Ok (Some (fmt.Errorf "could not write buf" werr), w')
    ∧ errors.Unwrap (fmt.Errorf "could not write buf" werr) = Some werr
    ∧ history_at w' (ws c) = Some (history s ++ [EvWrite bytes])
    ∧ encs w' !! enc c = Some e2.
Proof.
  intros He0 He1 He2 Hs Hw. eexists.
  split; [erewrite Write_encoded by eassumption; by rewrite Hw|].
  split; [done|]. unfold history_at. cbn.
  by rewrite !lookup_insert_eq.
Qed.

(** X8: at [ErrorLevel] and below, a successful [Write] hands the bytes to
    the sink and does not flush: the threshold is strict. *)
Theorem Write_up_to_error_does_not_sync (c : Core) (ent : Entry) (fs : list Field)
    (w : World E) (e0 e1 e2 : E) (bytes : string) (s : WriteSyncer) :
  (Level_ ent <= ErrorLevel)%Z →
  encs w !! enc c = Some e0 →
  addFields e0 (fields c) = Ok e1 →
  EncodeEntry e1 ent fs = Ok (e2, inl bytes) →
  sinks w !! ws c = Some s →
  snd (on_Write s (history s) bytes) = None →
  ∃ w',
    Write c ent fs w = Ok (None, w')
    ∧ history_at w' (ws c) = Some (history s ++ [EvWrite bytes]).
Proof.
  intros Hlvl He0 He1 He2 Hs Hw. eexists.
  split; [erewrite Write_encoded by eassumption; by rewrite Hw|].
  unfold history_at. cbn [sinks encs]. rewrite lookup_insert_eq.
  by rewrite bool_decide_eq_false_2 by lia.
Qed.

(** X9: writes through two cores that share neither the encoder nor the
    sink can be swapped: each returns what it returned, and the store at
    the end is the same. *)
Theorem Write_commute_disjoint (c1 c2 : Core) (ent1 ent2 : Entry) (fs1 fs2 : list Field)
    (w w1 w12 : World E) (r1 r2 : option error) :
  enc c1 ≠ enc c2 →
  ws c1 ≠ ws c2 →
  Write c1 ent1 fs1 w = Ok (r1, w1) →
  Write c2 ent2 fs2 w1 = Ok (r2, w12) →
  ∃ w2,
    Write c2 ent2 fs2 w = Ok (r2, w2)
    ∧ Write c1 ent1 fs1 w2 = Ok (r1, w12).
Proof.
  intros Henc Hws Hrun1 Hrun2.
  destruct (Write_inv _ _ _ _ _ _ Hrun1) as (a0 & a1 & a2 & out1 & Ha0 & Ha1 & Ha2 & Hs1).
  destruct (Write_inv _ _ _ _ _ _ Hrun2) as (b0 & b1 & b2 & out2 & Hb0 & Hb1 & Hb2 & Hs2).
  destruct (Write_frame _ _ _ _ _ _ Hrun1) as [Fe1 Fs1].
  rewrite Fe1 in Hb0 by done.
  destruct out1 as [bytes1|err1]; destruct out2 as [bytes2|err2].
  - destruct Hs1 as [s1 Hs1]. destruct Hs2 as [s2 Hs2]. rewrite Fs1 in Hs2 by done.
    rewrite (Write_encoded c1 ent1 fs1 w a0 a1 a2 bytes1 s1 Ha0 Ha1 Ha2 Hs1) in Hrun1.
    injection Hrun1 as <- <-.
    erewrite Write_encoded in Hrun2
      by (cbn; first [by rewrite lookup_insert_ne | eassumption]).
    injection Hrun2 as <- <-.
    eexists. split; [by eapply Write_encoded|].
    erewrite Write_encoded by (cbn; first [by rewrite lookup_insert_ne | eassumption]).
    cbn. do 2 f_equal. f_equal; swap_inserts.
  - destruct Hs1 as [s1 Hs1].
    rewrite (Write_encoded c1 ent1 fs1 w a0 a1 a2 bytes1 s1 Ha0 Ha1 Ha2 Hs1) in Hrun1.
    injection Hrun1 as <- <-.
    erewrite Write_encode_failed in Hrun2
      by (cbn; first [by rewrite lookup_insert_ne | eassumption]).
    injection Hrun2 as <- <-.
    eexists. split; [by eapply Write_encode_failed|].
    erewrite Write_encoded by (cbn; first [by rewrite lookup_insert_ne | eassumption]).
    cbn. do 2 f_equal. f_equal; swap_inserts.
  - destruct Hs2 as [s2 Hs2]. rewrite Fs1 in Hs2 by done.
    rewrite (Write_encode_failed c1 ent1 fs1 w a0 a1 a2 err1 Ha0 Ha1 Ha2) in Hrun1.
    injection Hrun1 as <- <-.
    erewrite Write_encoded in Hrun2
      by (cbn; first [by rewrite lookup_insert_ne | eassumption]).
    injection Hrun2 as <- <-.
    eexists. split; [by eapply Write_encoded|].
    erewrite Write_encode_failed by (cbn; first [by rewrite lookup_insert_ne | eassumption]).
    cbn. do 2 f_equal. f_equal; swap_inserts.
  - rewrite (Write_encode_failed c1 ent1 fs1 w a0 a1 a2 err1 Ha0 Ha1 Ha2) in Hrun1.
    injection Hrun1 as <- <-.
    erewrite Write_encode_failed in Hrun2
      by (cbn; first [by rewrite lookup_insert_ne | eassumption]).
    injection Hrun2 as <- <-.
    eexists. split; [by eapply Write_encode_failed|].
    erewrite Write_encode_failed by (cbn; first [by rewrite lookup_insert_ne | eassumption]).
    cbn. do 2 f_equal. f_equal; swap_inserts.
Qed.
End WriteSinkProps.

(** A sink that refuses every write (no space left on the device) and
    would flush without error. *)
Definition refusing_sink : WriteSyncer := {|
  on_Write _ _ := (0, Some (Errno 28));
  on_Sync _ := None;
  history := [];
|}.

Definition refusing_world : World jsonEncoder :=
  {| encs := {[ 1%positive := jsonenc.NewJSONEncoder ]};
     sinks := {[ 7%positive := refusing_sink ]} |}.

Lemma Write_write_error_witness :
  sinks refusing_world !! ws (example_core None) = Some refusing_sink
  ∧ ∃ w' bytes,
      Write (example_core None) (example_entry FatalLevel) [] refusing_world
        = Ok (Some (fmt.Errorf "could not write buf" (Errno 28)), w')
      ∧ history_at w' (ws (example_core None)) = Some [EvWrite bytes].
Proof.
  split; [reflexivity|].
  edestruct (@Write_write_error jsonEncoder _ _
               (example_core None) (example_entry FatalLevel) [] refusing_world)
    as (w' & Hrun & _ & Hhist & _); [reflexivity ..|].
  exists w'. eexists. split; [exact Hrun|exact Hhist].
Defined.

Lemma Write_up_to_error_does_not_sync_witness :
  (Level_ (example_entry ErrorLevel) <= ErrorLevel)%Z
  ∧ sinks (json_world None) !! ws (example_core None) = Some (sink_with None)
  ∧ ∃ w' bytes,
      Write (example_core None) (example_entry ErrorLevel) [] (json_world None) = Ok (None, w')
      ∧ history_at w' (ws (example_core None)) = Some [EvWrite bytes].
Proof.
  assert (Level_ (example_entry ErrorLevel) <= ErrorLevel)%Z as Hlvl by reflexivity.
  split; [exact Hlvl|]. split; [reflexivity|].
  edestruct (@Write_up_to_error_does_not_sync jsonEncoder _ _
               (example_core None) (example_entry ErrorLevel) [] (json_world None))
    as (w' & Hrun & Hhist); [exact Hlvl|reflexivity ..|].
  exists w'. eexists. split; [exact Hrun|exact Hhist].
Defined.

(** Two cores with an encoder and a sink each. *)
Definition two_world : World jsonEncoder :=
  {| encs := {[ 1%positive := jsonenc.NewJSONEncoder; 2%positive := jsonenc.NewJSONEncoder ]};
     sinks := {[ 7%positive := sink_with None; 8%positive := sink_with None ]} |}.

Definition other_core : Core :=
  {| LevelEnabler_ := None; enc := 2%positive; ws := 8%positive;
     fields := [zap.String "service" "billing"]; initFields := None |}.

Lemma Write_commute_disjoint_witness :
  enc (example_core None) ≠ enc other_core
  ∧ ws (example_core None) ≠ ws other_core
  ∧ ∃ r1 r2 w1 w12 w2,
      Write (example_core None) (example_entry InfoLevel) [] two_world = Ok (r1, w1)
      ∧ Write other_core (example_entry FatalLevel) [] w1 = Ok (r2, w12)
      ∧ Write other_core (example_entry FatalLevel) [] two_world = Ok (r2, w2)
      ∧ Write (example_core None) (example_entry InfoLevel) [] w2 = Ok (r1, w12).
Proof.
  assert (enc (example_core None) ≠ enc other_core) as Henc by discriminate.
  assert (ws (example_core None) ≠ ws other_core) as Hws by discriminate.
  split; [exact Henc|]. split; [exact Hws|].
  pose proof (Write_encoded (example_core None) (example_entry InfoLevel) [] two_world
                _ _ _ _ _ eq_refl eq_refl eq_refl eq_refl) as Hrun1.
  match type of Hrun1 with
  | _ = Ok (_, ?w1) =>
      pose proof (Write_encoded other_core (example_entry FatalLevel) [] w1
                    _ _ _ _ _ eq_refl eq_refl eq_refl eq_refl) as Hrun2
  end.
  destruct (Write_commute_disjoint _ _ _ _ _ _ _ _ _ _ _ Henc Hws Hrun1 Hrun2)
    as (w2 & Hrun2' & Hrun1').
  do 4 eexists. exists w2.
  split; [exact Hrun1|]. split; [exact Hrun2|].
  split; [exact Hrun2'|exact Hrun1'].
Defined.

(** ** The context of a JSON core over several writes and derivations *)

Lemma string_length_app (s1 s2 : string) :
  String.length (s1 +:+ s2) = (String.length s1 + String.length s2)%nat.
Proof.
  induction s1 as [|c s1 IH]; [reflexivity|].
  rewrite string_app_cons. cbn [String.length]. by rewrite IH.
Qed.

Lemma extends_length (a b : jsonEncoder) :
  extends a b → (String.length (buf a) ≤ String.length (buf b))%nat.
Proof. intros [d ->]. rewrite string_length_app. lia. Qed.

Lemma AddString_grows (key val : string) (enc : jsonEncoder) :
  (String.length (buf enc) < String.length (buf (AddString key val enc)))%nat.
Proof.
  set (x := json.safeAddString val
              (json.append json.quote (json.addElementSeparator (json.addKey key enc)))).
  change (AddString key val enc) with (json.append json.quote x).
  assert (extends enc x) as Hext.
  { unfold x, json.safeAddString. etrans; [apply addKey_extends|]. extends_chain. }
  apply extends_length in Hext.
  unfold json.append. cbn [buf]. rewrite string_length_app.
  change (String.length json.quote) with 1%nat. lia.
Qed.

Lemma json_Clone_same (enc : jsonEncoder) : Clone enc = enc.
Proof. by destruct enc. Qed.

(** X10: a successful [Write] through a JSON core leaves the accumulated
    fields merged into the core's encoder, so the context only grows from
    one write to the next; when the field list starts with a string field,
    as the list [newCore] builds does, it grows at every write. *)
Theorem Write_json_merges_fields_for_good (c : Core) (ent : Entry) (fs : list Field)
    (w w' : World jsonEncoder) (r : option error) :
  Write c ent fs w = Ok (r, w') →
  ∃ e0 e1,
    encs w !! enc c = Some e0
    ∧ addFields e0 (fields c) = Ok e1
    ∧ encs w' !! enc c = Some e1
    ∧ extends e0 e1
    ∧ (∀ key val rest,
         fields c = zap.String key val :: rest →
         (String.length (buf e0) < String.length (buf e1))%nat).
Proof.
  intros Hrun.
  destruct (Write_inv _ _ _ _ _ _ Hrun) as (e0 & e1 & e2 & out & He0 & He1 & He2 & Hs).
  destruct (json_EncodeEntry_inl _ _ _ _ _ He2) as [-> [bytes ->]].
  destruct Hs as [s Hs].
  rewrite (Write_encoded c ent fs w e0 e1 e1 bytes s He0 He1 He2 Hs) in Hrun.
  injection Hrun as _ <-.
  exists e0, e1. do 2 (split; [done|]).
  split; [cbn; apply lookup_insert_eq|].
  split; [by eapply addFields_extends|].
  intros key val rest Hfields. rewrite Hfields in He1.
  cbn [addFields] in He1.
  change (AddTo (zap.String key val) e0) with (Ok (AddString key val e0)) in He1.
  cbn [res_bind] in He1. apply addFields_extends, extends_length in He1.
  pose proof (AddString_grows key val e0). lia.
Qed.

Lemma Write_json_merges_fields_for_good_witness :
  ∃ r1 w1 r2 w2 e1 e2,
    Write (example_core None) (example_entry InfoLevel) [] (json_world None) = Ok (r1, w1)
    ∧ Write (example_core None) (example_entry InfoLevel) [] w1 = Ok (r2, w2)
    ∧ encs w1 !! enc (example_core None) = Some e1
    ∧ encs w2 !! enc (example_core None) = Some e2
    ∧ (0 < String.length (buf e1) < String.length (buf e2))%nat.
Proof.
  pose proof (Write_encoded (example_core None) (example_entry InfoLevel) [] (json_world None)
                _ _ _ _ _ eq_refl eq_refl eq_refl eq_refl) as Hrun1.
  match type of Hrun1 with
  | _ = Ok (_, ?w1) =>
      pose proof (Write_encoded (example_core None) (example_entry InfoLevel) [] w1
                    _ _ _ _ _ eq_refl eq_refl eq_refl eq_refl) as Hrun2
  end.
  destruct (Write_json_merges_fields_for_good _ _ _ _ _ _ Hrun1)
    as (a0 & a1 & Ha0 & _ & Ha1 & _ & Hgrow1).
  destruct (Write_json_merges_fields_for_good _ _ _ _ _ _ Hrun2)
    as (b0 & b1 & Hb0 & _ & Hb1 & _ & Hgrow2).
  do 4 eexists. exists a1, b1.
  split; [exact Hrun1|]. split; [exact Hrun2|].
  split; [exact Ha1|]. split; [exact Hb1|].
  assert (b0 = a1) as -> by congruence.
  split; [|by eapply Hgrow2].
  eapply Nat.le_lt_trans; [apply Nat.le_0_l|by eapply Hgrow1].
Defined.

(** X11: with JSON encoders, deriving a core with [fs1] and deriving from
    it with [fs2] gives the context that one [With] with [fs1 ++ fs2]
    gives.  Each [With] makes a new encoder; the encoders of the cores on
    the way are left as they were. *)
Theorem With_With_json (c : Core) (fs1 fs2 : list Field) (w : World jsonEncoder)
    (e e12 : jsonEncoder) :
  encs w !! enc c = Some e →
  addFields e (fs1 ++ fs2) = Ok e12 →
  ∃ d1 w1 d2 w2 e1 d w',
    With c fs1 w = Ok (d1, w1)
    ∧ With d1 fs2 w1 = Ok (d2, w2)
    ∧ With c (fs1 ++ fs2) w = Ok (d, w')
    ∧ encs w2 !! enc d2 = Some e12
    ∧ encs w' !! enc d = Some e12
    ∧ addFields e fs1 = Ok e1
    ∧ encs w2 !! enc d1 = Some e1
    ∧ encs w2 !! enc c = Some e
    ∧ enc d1 ≠ enc c ∧ enc d2 ≠ enc c ∧ enc d2 ≠ enc d1
    ∧ fields d2 = fields c
    ∧ ws d2 = ws c.
Proof.
  intros He He12.
  rewrite addFields_app_bind in He12.
  destruct (addFields e fs1) as [e1|] eqn:He1; cbn in He12; [|done].
  pose proof (fresh_enc_unused w) as Hfresh.
  set (l1 := fresh (dom (encs w))) in *.
  set (w1 := {| encs := <[l1 := e1]> (encs w); sinks := sinks w |}).
  pose proof (fresh_enc_unused w1) as Hfresh1.
  set (l2 := fresh (dom (encs w1))) in *.
  assert (l1 ≠ enc c) as Hn1 by congruence.
  assert (l2 ≠ l1) as Hn2.
  { intros Heq. rewrite Heq in Hfresh1. cbn in Hfresh1.
    by rewrite lookup_insert_eq in Hfresh1. }
  assert (l2 ≠ enc c) as Hn3.
  { intros Heq. rewrite Heq in Hfresh1. cbn in Hfresh1.
    rewrite lookup_insert_ne in Hfresh1 by done. congruence. }
  do 7 eexists.
  split; [apply (With_run c fs1 w e e1 He); by rewrite json_Clone_same|].
  split.
  { apply (With_run _ fs2 w1 e1 e12); [apply lookup_insert_eq|by rewrite json_Clone_same]. }
  split.
  { apply (With_run c (fs1 ++ fs2) w e e12 He).
    rewrite json_Clone_same, addFields_app_bind, He1. exact He12. }
  cbn [encs enc fields ws]. unfold w1. cbn [encs].
  split; [apply lookup_insert_eq|]. split; [apply lookup_insert_eq|].
  split; [reflexivity|].
  split; [by rewrite lookup_insert_ne, lookup_insert_eq|].
  split; [by rewrite !lookup_insert_ne|].
  done.
Qed.

Lemma With_With_json_witness :
  encs (json_world None) !! enc (example_core None) = Some jsonenc.NewJSONEncoder
  ∧ ∃ e12 d1 w1 d2 w2 d w',
      addFields jsonenc.NewJSONEncoder ([zap.String "k" "v"] ++ [zap.Int "n" 3]) = Ok e12
      ∧ With (example_core None) [zap.String "k" "v"] (json_world None) = Ok (d1, w1)
      ∧ With d1 [zap.Int "n" 3] w1 = Ok (d2, w2)
      ∧ With (example_core None) ([zap.String "k" "v"] ++ [zap.Int "n" 3]) (json_world None)
          = Ok (d, w')
      ∧ encs w2 !! enc d2 = Some e12
      ∧ encs w' !! enc d = Some e12.
Proof.
  split; [reflexivity|].
  edestruct (With_With_json (example_core None) [zap.String "k" "v"] [zap.Int "n" 3]
               (json_world None))
    as (d1 & w1 & d2 & w2 & e1 & d & w' & H1 & H2 & H3 & H4 & H5 & _);
    [reflexivity ..|].
  eexists. exists d1, w1, d2, w2, d, w'.
  split; [reflexivity|]. split; [exact H1|]. split; [exact H2|].
  split; [exact H3|]. split; [exact H4|exact H5].
Defined.

Lemma With_json_write_includes_fields_witness :
  ∃ d w' w2 added pre post rest,
    With (example_core None) [zap.String "k" "v"] (json_world None) = Ok (d, w')
    ∧ Write d (example_entry InfoLevel) [] w' = Ok (None, w2)
    ∧ added ≠ ""
    ∧ history_at w2 (ws (example_core None)) =
        Some (history (sink_with None)
              ++ EvWrite (pre +:+ (buf jsonenc.NewJSONEncoder +:+ added) +:+ post) :: rest).
Proof.
  pose proof (With_run (example_core None) [zap.String "k" "v"] (json_world None)
                _ _ eq_refl eq_refl) as Hwith.
  match type of Hwith with
  | _ = Ok (?d, ?w') =>
      pose proof (Write_encoded d (example_entry InfoLevel) [] w'
                    _ _ _ _ _ (lookup_insert_eq _ _ _) eq_refl eq_refl eq_refl) as Hrun
  end.
  destruct (With_json_write_includes_fields (example_core None) _ [zap.String "k" "v"] _
              (json_world None) _ _ _ _ _ _ _ eq_refl eq_refl eq_refl Hwith Hrun)
    as [[added Hadded] (pre & post & rest & Hhist)].
  do 3 eexists. exists added, pre, post, rest.
  split; [exact Hwith|]. split; [exact Hrun|].
  split; [|by rewrite <- Hadded].
  intros ->. discriminate Hadded.
Defined.

(** ** The shape of an encoded entry *)

Lemma encode_time_extends cfg (ent : Entry) (final : jsonEncoder) :
  extends final (jsonenc.encode_time cfg ent final).
Proof.
  unfold jsonenc.encode_time. destruct (jsonenc.nonempty _); [|reflexivity].
  etrans; [apply addKey_extends|]. extends_chain.
Qed.

Lemma encode_name_extends cfg (ent : Entry) (final : jsonEncoder) :
  extends final (jsonenc.encode_name cfg ent final).
Proof.
  unfold jsonenc.encode_name. destruct (_ && _); [|reflexivity].
  etrans; [apply addKey_extends|apply AppendString_extends].
Qed.

Lemma encode_caller_extends cfg (ent : Entry) (final : jsonEncoder) :
  extends final (jsonenc.encode_caller cfg ent final).
Proof.
  unfold jsonenc.encode_caller. destruct (_ && _); [|reflexivity].
  etrans; [apply addKey_extends|apply AppendString_extends].
Qed.

Lemma encode_message_extends cfg (ent : Entry) (final : jsonEncoder) :
  extends final (jsonenc.encode_message cfg ent final).
Proof.
  unfold jsonenc.encode_message. destruct (jsonenc.nonempty _); [|reflexivity].
  etrans; [apply addKey_extends|apply AppendString_extends].
Qed.

Lemma encode_context_extends (enc final : jsonEncoder) :
  extends final (jsonenc.encode_context enc final).
Proof.
  unfold jsonenc.encode_context. destruct (jsonenc.nonempty _); [|reflexivity].
  extends_chain.
Qed.

Lemma encode_stack_extends cfg (ent : Entry) (final : jsonEncoder) :
  extends final (jsonenc.encode_stack cfg ent final).
Proof.
  unfold jsonenc.encode_stack. destruct (_ && _); [apply AddString_extends|reflexivity].
Qed.

Lemma encode_level_severity (ent : Entry) (on : nat) :
  buf (jsonenc.encode_level NewEncoderConfig ent
         (json.append "{" {| buf := ""; spaced := false; openNamespaces := on |}))
  = "{" +:+ quoted "severity" +:+ ":"
    +:+ quoted (logtypepb.String (severity_at (Level_ ent))).
Proof.
  unfold jsonenc.encode_level, NewEncoderConfig, levelEncoder.
  cbn [EncodeLevel LevelKey].
  by destruct (severity_at (Level_ ent)).
Qed.

(** X12: every entry a JSON encoder of this package encodes is one
    object on one line: it opens with the key [severity], whose value is
    the name of the Cloud Logging severity of the entry's level (never
    zap's own level name), and it ends with the closing brace and the line
    ending. *)
Theorem json_entry_starts_with_severity (enc enc' : jsonEncoder) (ent : Entry)
    (fs : list Field) (bytes : string) :
  spaced enc = false →
  EncodeEntry enc ent fs = Ok (enc', inl bytes) →
  ∃ rest,
    bytes =
      ("{" +:+ quoted "severity" +:+ ":"
       +:+ quoted (logtypepb.String (severity_at (Level_ ent))))
      +:+ rest +:+ "}" +:+ DefaultLineEnding.
Proof.
  destruct enc as [b sp on]. cbn [spaced]. intros ->.
  cbn [EncodeEntry jsonEncoder_Encoder]. unfold jsonenc.EncodeEntry, jsonenc.clone.
  cbn [spaced openNamespaces].
  set (enc := {| buf := b; spaced := false; openNamespaces := on |}).
  set (f0 := jsonenc.encode_level _ _ _).
  set (f1 := jsonenc.encode_context enc _).
  assert (extends f0 f1) as [d1 Hd1].
  { unfold f1. etrans; [|apply encode_context_extends].
    etrans; [|apply encode_message_extends]. etrans; [|apply encode_caller_extends].
    etrans; [|apply encode_name_extends]. apply encode_time_extends. }
  destruct (addFields f1 fs) as [f2|] eqn:Hfs; cbn [res_bind]; [|done].
  intros [= _ <-].
  apply addFields_extends in Hfs as [d2 Hd2].
  destruct (encode_stack_extends NewEncoderConfig ent (json.closeOpenNamespaces f2))
    as [d3 Hd3].
  destruct (closeOpenNamespaces_extends f2) as [d4 Hd4].
  cbn [json.append buf LineEnding NewEncoderConfig].
  rewrite Hd3, Hd4, Hd2, Hd1. unfold f0. rewrite encode_level_severity.
  exists (d1 +:+ d2 +:+ d4 +:+ d3). by rewrite !string_app_assoc.
Qed.

Lemma json_entry_starts_with_severity_witness :
  spaced jsonenc.NewJSONEncoder = false
  ∧ ∃ bytes rest,
      EncodeEntry jsonenc.NewJSONEncoder (example_entry DPanicLevel) [zap.Bool "retry" true]
        = Ok (jsonenc.NewJSONEncoder, inl bytes)
      ∧ bytes =
          ("{" +:+ quoted "severity" +:+ ":" +:+ quoted "CRITICAL")
          +:+ rest +:+ "}" +:+ DefaultLineEnding.
Proof.
  split; [reflexivity|].
  eexists.
  edestruct (json_entry_starts_with_severity jsonenc.NewJSONEncoder jsonenc.NewJSONEncoder
               (example_entry DPanicLevel) [zap.Bool "retry" true])
    as [rest Hrest]; [reflexivity|reflexivity|].
  exists rest. split; [reflexivity|exact Hrest].
Defined.

(** ** The function name of a source location *)

Lemma prefix_app (p s : string) : String.prefix p (p +:+ s) = true.
Proof.
  induction p as [|c p IH]; [by destruct s|].
  rewrite string_app_cons. cbn [String.prefix].
  by destruct (ascii_dec c c).
Qed.

Lemma substring_all (s : string) : String.substring 0 (String.length s) s = s.
Proof. induction s as [|c s IH]; [reflexivity|]. cbn. by rewrite IH. Qed.

Lemma TrimPrefix_app (p s : string) : TrimPrefix (p +:+ s) p = s.
Proof.
  unfold TrimPrefix. rewrite prefix_app.
  induction p as [|c p IH].
  - cbn [String.length]. rewrite Nat.sub_0_r. apply substring_all.
  - rewrite string_app_cons. cbn [String.length String.substring Nat.sub]. exact IH.
Qed.

Section SourceNameProps.
Variable FuncForPC : Z → option string.
Variable gopath_src : string.

(** X13: with [ok = true], [newSource] always returns a location holding
    the file and the line it was given.  Its function name is empty when
    the resolver does not know the program counter, the resolved name
    without the leading [GOPATH/src/] when the name starts with it, and
    the resolved name as it is otherwise. *)
Theorem newSource_function_name (pc : Z) (file : string) (line : Z) :
  ∃ function,
    newSource FuncForPC gopath_src pc file line true
      = Some {| sl_embedded := Some {| File := file; Line := line; Function := function |} |}
    ∧ (FuncForPC pc = None → function = "")
    ∧ (∀ rest, FuncForPC pc = Some ((gopath_src +:+ "/") +:+ rest) → function = rest)
    ∧ (∀ name, FuncForPC pc = Some name →
         String.prefix (gopath_src +:+ "/") name = false → function = name).
Proof.
  unfold newSource. cbn [negb]. eexists. split; [reflexivity|].
  split; [by intros ->|]. split.
  - intros rest ->. apply TrimPrefix_app.
  - intros name -> Hp. unfold TrimPrefix. by rewrite Hp.
Qed.
End SourceNameProps.

Lemma newSource_function_name_witness :
  ∃ function,
    newSource (fun _ => Some "/home/dev/go/src/github.com/acme/app.Run") "/home/dev/go/src"
      4198400 "app.go" 17 true
      = Some {| sl_embedded := Some {| File := "app.go"; Line := 17; Function := function |} |}
    ∧ function = "github.com/acme/app.Run".
Proof.
  destruct (newSource_function_name
              (fun _ => Some "/home/dev/go/src/github.com/acme/app.Run") "/home/dev/go/src"
              4198400 "app.go" 17)
    as (function & Hsrc & _ & Htrim & _).
  exists function. split; [exact Hsrc|].
  apply (Htrim "github.com/acme/app.Run"). reflexivity.
Defined.

(** ** Options of [newCore] *)

Lemma ws_of_WithInitialFields (ws0 : loc) (opts : list Option) m :
  ws_of ws0 (opts ++ [WithInitialFields m]) = ws_of ws0 opts.
Proof. by rewrite ws_of_app. Qed.

Lemma initFields_of_app_WithWriteSyncer (opts : list Option) (l : loc) :
  initFields_of (opts ++ [WithWriteSyncer l]) = initFields_of opts.
Proof. unfold initFields_of. by rewrite fold_left_app. Qed.

Lemma initFields_of_app_WithInitialFields (opts : list Option) m :
  initFields_of (opts ++ [WithInitialFields m]) = m.
Proof. unfold initFields_of. by rewrite fold_left_app. Qed.

(** X14: the options of [newCore] apply in the order given and a later
    one replaces an earlier one of its kind.  A [WithWriteSyncer] at the
    end sets the sink, in place of the sink argument, and changes nothing
    else in the core; a [WithInitialFields] at the end decides the initial
    fields alone, and leaves the sink as the options before it set it. *)
Theorem newCore_options_in_order (Detect : Resource)
    (range_keys : option (gmap string Value) → list string)
    (ws0 : loc) (enab : option LevelEnabler) (opts : list Option) (w : World jsonEncoder) :
  ∃ c0 w',
    newCore Detect range_keys ws0 enab opts w = Ok (c0, w')
    ∧ LevelEnabler_ c0 = enab
    ∧ (opts = [] → ws c0 = ws0 ∧ initFields c0 = None)
    ∧ (∀ l, ∃ c,
         newCore Detect range_keys ws0 enab (opts ++ [WithWriteSyncer l]) w = Ok (c, w')
         ∧ ws c = l
         ∧ enc c = enc c0 ∧ fields c = fields c0 ∧ initFields c = initFields c0
         ∧ LevelEnabler_ c = enab)
    ∧ (∀ m, ∃ c c1 w1,
         newCore Detect range_keys ws0 enab (opts ++ [WithInitialFields m]) w = Ok (c, w')
         ∧ newCore Detect range_keys ws0 enab [WithInitialFields m] w = Ok (c1, w1)
         ∧ initFields c = m
         ∧ fields c = fields c1
         ∧ ws c = ws c0).
Proof.
  eexists. eexists. split; [apply newCore_run|]. cbn [LevelEnabler_ ws initFields enc fields].
  split; [reflexivity|]. split; [by intros ->|]. split.
  - intros l. eexists. split; [apply newCore_run|].
    cbn [LevelEnabler_ ws initFields enc fields].
    rewrite initFields_of_app_WithWriteSyncer, ws_of_app. done.
  - intros m. do 3 eexists. split; [apply newCore_run|].
    split; [apply newCore_run|].
    cbn [LevelEnabler_ ws initFields enc fields].
    rewrite initFields_of_app_WithInitialFields, ws_of_WithInitialFields. done.
Qed.

(** X15: when the initial-field map is nil or empty, the accumulated
    fields are the two resource fields and nothing else, and the keys of
    the map are not visited: the result is the same for every way of
    visiting them. *)
Theorem newCore_without_initial_fields (Detect : Resource)
    (range_keys : option (gmap string Value) → list string)
    (ws0 : loc) (enab : option LevelEnabler) (opts : list Option) (w : World jsonEncoder)
    (m : option (gmap string Value)) :
  m = None ∨ m = Some ∅ →
  ∃ c w',
    newCore Detect range_keys ws0 enab (opts ++ [WithInitialFields m]) w = Ok (c, w')
    ∧ fields c =
        [zap.String (res_Type Detect) (res_LogID Detect); zap.Inline (IResource Detect)]
    ∧ ∀ range_keys',
        newCore Detect range_keys' ws0 enab (opts ++ [WithInitialFields m]) w = Ok (c, w').
Proof.
  intros Hm.
  assert (∀ rk,
            newCore Detect rk ws0 enab (opts ++ [WithInitialFields m]) w =
              Ok ({| LevelEnabler_ := enab;
                     enc := fresh (dom (encs w));
                     ws := ws_of ws0 opts;
                     fields := newCore_fields Detect m [];
                     initFields := m |},
                  {| encs := <[fresh (dom (encs w)) := jsonenc.NewJSONEncoder]> (encs w);
                     sinks := sinks w |})) as Hrun.
  { intros rk. rewrite newCore_run.
    rewrite initFields_of_app_WithInitialFields, ws_of_WithInitialFields.
    rewrite bool_decide_eq_false_2; [done|].
    destruct Hm as [-> | ->]; cbn; [lia|]. rewrite map_size_empty. lia. }
  eexists. eexists. split; [apply Hrun|]. split; [reflexivity|exact Hrun].
Qed.

Lemma newCore_without_initial_fields_witness :
  (Some (∅ : gmap string Value) = None ∨ Some (∅ : gmap string Value) = Some ∅)
  ∧ ∃ c w',
      newCore example_resource visit_reversed 7%positive None
        ([WithInitialFields (Some fields_b_a)] ++ [WithInitialFields (Some ∅)])
        (json_world None) = Ok (c, w')
      ∧ fields c = [zap.String "gce_instance" "app"; zap.Inline (IResource example_resource)].
Proof.
  assert (Some (∅ : gmap string Value) = None ∨ Some (∅ : gmap string Value) = Some ∅)
    as Hm by (right; reflexivity).
  split; [exact Hm|].
  destruct (newCore_without_initial_fields example_resource visit_reversed 7%positive None
              [WithInitialFields (Some fields_b_a)] (json_world None) (Some ∅) Hm)
    as (c & w' & Hrun & Hfields & _).
  exists c, w'. split; [exact Hrun|exact Hfields].
Defined.
